(** * morse-go: a shallow embedding of [morse.go] and its specification

    The development follows the layout of the Go package:

    - strings and runes, with the parts of Go's [unicode], [strings],
      [regexp] and [fmt] packages that [morse.go] calls;
    - the durations, the codes and the two lookup tables built by [init];
    - [Encode], [Decode], [Encodable], [Decodable], [Escape] and
      [CodeFromDurations], and [Beep] as the calls it makes;
    - the properties of the specification, proved about these definitions.

    A Go string is modelled by the sequence of runes (code points, [Z]) that
    a [range] loop and the regexp engine read from it; a byte that is not
    valid UTF-8 is read as U+FFFD by both. *)

From Stdlib Require Import ZArith Lia String Ascii.
From Equations Require Import Equations.
From stdpp Require Import gmap list.

Local Open Scope Z_scope.

(** ** Runes and strings *)

Abbreviation rune := Z (only parsing).

(** Go's [string]: here the runes read from it. *)
Abbreviation gostring := (list Z) (only parsing).

Definition MaxRune : rune := 0x10FFFF.
Definition RuneError : rune := 0xFFFD.
Definition MaxASCII : rune := 0x7F.

(** [utf8.ValidRune]. *)
Definition ValidRune (r : rune) : bool :=
  ((0 <=? r) && (r <? 0xD800)) || ((0xDFFF <? r) && (r <=? MaxRune)).

(** What is read back from the UTF-8 encoding of [r]: [utf8.AppendRune]
    writes U+FFFD for a rune that is not valid. *)
Definition utf8 (r : rune) : rune := if ValidRune r then r else RuneError.

(** [string(runes)] for a [[]rune]. *)
Definition string_of_runes (rs : list rune) : gostring := map utf8 rs.

(** A string literal of ASCII characters. *)
Definition lit (s : String.string) : gostring :=
  map (fun a => Z.of_N (N_of_ascii a)) (list_ascii_of_string s).

(** ** Package [unicode]: case mapping *)

Definition UpperCase : nat := 0.
Definition LowerCase : nat := 1.
Definition TitleCase : nat := 2.
Definition MaxCase : nat := 3.
Definition UpperLower : rune := MaxRune + 1.

(** [unicode.CaseRange]: the runes [Lo..Hi] and the deltas to add for the
    upper, lower and title case. *)
Record CaseRange := mkCaseRange { Lo : Z; Hi : Z; Delta : list rune }.

(** The loop of [unicode.to]: a binary search of [caseRange] between [lo]
    and [hi].  Each turn shrinks [hi - lo]; [fuel] bounds the turns. *)
Fixpoint to_loop (fuel : nat) (_case : nat) (r : rune)
                 (caseRange : list CaseRange) (lo hi : Z) : rune * bool :=
  match fuel with
  | O => (r, false)
  | S fuel' =>
    if lo <? hi then
      let m := Z.shiftr (lo + hi) 1 in
      match caseRange !! Z.to_nat m with
      | None => (r, false)
      | Some cr =>
        if (Lo cr <=? r) && (r <=? Hi cr) then
          let delta := nth _case (Delta cr) 0 in
          if MaxRune <? delta then
            (Lo cr + Z.lor (Z.land (r - Lo cr) (Z.lnot 1))
                           (Z.land (Z.of_nat _case) 1), true)
          else (r + delta, true)
        else if r <? Lo cr then to_loop fuel' _case r caseRange lo m
        else to_loop fuel' _case r caseRange (m + 1) hi
      end
    else (r, false)
  end.

(** [unicode.to(_case, r, caseRange)]. *)
Definition to (_case : nat) (r : rune) (caseRange : list CaseRange) : rune * bool :=
  if (MaxCase <=? _case)%nat then (RuneError, false)
  else to_loop (S (length caseRange)) _case r caseRange 0
               (Z.of_nat (length caseRange)).

(** [unicode.TurkishCase] (casetables.go). *)
Definition TurkishCase : list CaseRange :=
  [ mkCaseRange 0x0049 0x0049 [0; 0x131 - 0x49; 0];
    mkCaseRange 0x0069 0x0069 [0x130 - 0x69; 0; 0x130 - 0x69];
    mkCaseRange 0x0130 0x0130 [0; 0x69 - 0x130; 0];
    mkCaseRange 0x0131 0x0131 [0x49 - 0x131; 0; 0x49 - 0x131] ].

(** The lower-casing that the specification proposes instead: plain ASCII
    lower-casing, every other rune unchanged. *)
Definition asciiLower (r : rune) : rune :=
  if (0x41 <=? r) && (r <=? 0x5A) then r + 0x20 else r.

(** [strings.Map]: a negative result drops the character. *)
Definition strings_Map (mapping : rune -> rune) (s : gostring) : gostring :=
  flat_map (fun c => let r := mapping c in if 0 <=? r then [utf8 r] else []) s.

Section Unicode.

(** [unicode.CaseRanges], the case table of the Unicode version Go was built
    with; it is data of Go's library, so the package is verified for every
    table. *)
Variable CaseRanges : list CaseRange.

(** [unicode.ToLower]. *)
Definition unicode_ToLower (r : rune) : rune :=
  if r <=? MaxASCII then
    if (0x41 <=? r) && (r <=? 0x5A) then r + (0x61 - 0x41) else r
  else fst (to LowerCase r CaseRanges).

(** [SpecialCase.ToLower]. *)
Definition SpecialCase_ToLower (special : list CaseRange) (r : rune) : rune :=
  let '(r1, hadMapping) := to LowerCase r special in
  if (r1 =? r) && negb hadMapping then unicode_ToLower r else r1.

(** [strings.ToLowerSpecial]. *)
Definition strings_ToLowerSpecial (c : list CaseRange) (s : gostring) : gostring :=
  strings_Map (SpecialCase_ToLower c) s.

End Unicode.

(** ** Package [regexp] *)

(** Both patterns compiled by [init] have the shape [[class]{n,}] with
    [n >= 1]: [n] or more characters of a class, as many as follow (the
    repetition is greedy). *)
Record Regexp := mkRegexp { class : rune -> bool; atLeast : nat }.

(** The Perl class [\s] of RE2: tab, line feed, form feed, carriage return
    and space. *)
Definition perl_space (r : rune) : bool :=
  (r =? 0x09) || (r =? 0x0A) || (r =? 0x0C) || (r =? 0x0D) || (r =? 0x20).

Definition in_range (lo hi r : rune) : bool := (lo <=? r) && (r <=? hi).

(** The class [[a-zA-Z0-9\s]]. *)
Definition alnum_space (r : rune) : bool :=
  in_range 0x61 0x7A r || in_range 0x41 0x5A r || in_range 0x30 0x39 r || perl_space r.

(** The number of runes at the start of [s] that are in the class [p]. *)
Fixpoint run_length (p : rune -> bool) (s : gostring) : nat :=
  match s with
  | r :: s' => if p r then S (run_length p s') else O
  | [] => O
  end.

(** The match of [re] that starts at the first rune of [s], if there is
    one: the number of runes it takes. *)
Definition match_here (re : Regexp) (s : gostring) : option nat :=
  let n := run_length (class re) s in
  if (atLeast re <=? n)%nat && (1 <=? n)%nat then Some n else None.

(** [Regexp.ReplaceAllString] for a replacement without [$]: the text is
    read from the left; a match is replaced and the reading goes on behind
    it, a rune where no match starts is copied. *)
Equations? ReplaceAllString (re : Regexp) (src repl : gostring) : gostring
  by wf (length src) lt :=
  ReplaceAllString re [] repl := [];
  ReplaceAllString re (r :: s) repl with match_here re (r :: s) := {
    | Some (S k) := repl ++ ReplaceAllString re (drop k s) repl;
    | _ := r :: ReplaceAllString re s repl }.
Proof. all: cbn; rewrite ?length_drop; lia. Qed.

(** ** Package [fmt]: the messages of [morse.go] *)

(** An [error] is its message; [nil] is [None]. *)
Abbreviation error := (list Z) (only parsing).

(** [strings.Join]. *)
Fixpoint strings_Join (elems : list gostring) (sep : gostring) : gostring :=
  match elems with
  | [] => []
  | [e] => e
  | e :: rest => e ++ sep ++ strings_Join rest sep
  end.

(** The verb [%c] for a rune. *)
Definition fmt_c (r : rune) : gostring := [utf8 r].

(** The verb [%v] for a slice of strings: the elements between brackets,
    a space between two of them. *)
Definition fmt_v (elems : list gostring) : gostring :=
  lit "[" ++ strings_Join elems (lit " ") ++ lit "]".

(** ** Package [morse] *)

(** [type Duration string]. *)
Abbreviation Duration := (list Z) (only parsing).

(** The bullet U+2022. *)
Definition Dit : Duration := [0x2022].
(** The minus sign U+2212. *)
Definition Dah : Duration := [0x2212].

(** [type Code string]. *)
Abbreviation Code := (list Z) (only parsing).

(** The international Morse codes.  They keep the names of [morse.go], in a
    module of their own: [S], [O], [I], [N] and [Z] are taken in Rocq. *)
Module Codes.
Definition A : Code := Dit ++ Dah.
Definition B : Code := Dah ++ Dit ++ Dit ++ Dit.
Definition C : Code := Dah ++ Dit ++ Dah ++ Dit.
Definition D : Code := Dah ++ Dit ++ Dit.
Definition E : Code := Dit.
Definition F : Code := Dit ++ Dit ++ Dah ++ Dit.
Definition G : Code := Dah ++ Dah ++ Dit.
Definition H : Code := Dit ++ Dit ++ Dit ++ Dit.
Definition I : Code := Dit ++ Dit.
Definition J : Code := Dit ++ Dah ++ Dah ++ Dah.
Definition K : Code := Dah ++ Dit ++ Dah.
Definition L : Code := Dit ++ Dah ++ Dit ++ Dit.
Definition M : Code := Dah ++ Dah.
Definition N : Code := Dah ++ Dit.
Definition O : Code := Dah ++ Dah ++ Dah.
Definition P : Code := Dit ++ Dah ++ Dah ++ Dit.
Definition Q : Code := Dah ++ Dah ++ Dit ++ Dah.
Definition R : Code := Dit ++ Dah ++ Dit.
Definition S : Code := Dit ++ Dit ++ Dit.
Definition T : Code := Dah.
Definition U : Code := Dit ++ Dit ++ Dah.
Definition V : Code := Dit ++ Dit ++ Dit ++ Dah.
Definition W : Code := Dit ++ Dah ++ Dah.
Definition X : Code := Dah ++ Dit ++ Dit ++ Dah.
Definition Y : Code := Dah ++ Dit ++ Dah ++ Dah.
Definition Z : Code := Dah ++ Dah ++ Dit ++ Dit.

Definition One : Code := Dit ++ Dah ++ Dah ++ Dah ++ Dah.
Definition Two : Code := Dit ++ Dit ++ Dah ++ Dah ++ Dah.
Definition Three : Code := Dit ++ Dit ++ Dit ++ Dah ++ Dah.
Definition Four : Code := Dit ++ Dit ++ Dit ++ Dit ++ Dah.
Definition Five : Code := Dit ++ Dit ++ Dit ++ Dit ++ Dit.
Definition Six : Code := Dah ++ Dit ++ Dit ++ Dit ++ Dit.
Definition Seven : Code := Dah ++ Dah ++ Dit ++ Dit ++ Dit.
Definition Eight : Code := Dah ++ Dah ++ Dah ++ Dit ++ Dit.
Definition Nine : Code := Dah ++ Dah ++ Dah ++ Dah ++ Dit.
Definition Zero : Code := Dah ++ Dah ++ Dah ++ Dah ++ Dah.

Definition Space : Code := lit " ".
Definition None : Code := [].
End Codes.

(** [CodeFromDurations]: the durations are collected and joined with the
    empty separator. *)
Definition CodeFromDurations (durations : list Duration) : Code :=
  let strs := foldl (fun strs d => strs ++ [d]) [] durations in
  strings_Join strs [].

(** A rune literal. *)
Definition ch (a : ascii) : rune := Z.of_N (N_of_ascii a).

(** The map literal of [init], in the order it is written. *)
Definition codesMap_literal : list (rune * Code) :=
  [ (ch "a", Codes.A); (ch "b", Codes.B); (ch "c", Codes.C); (ch "d", Codes.D);
    (ch "e", Codes.E); (ch "f", Codes.F); (ch "g", Codes.G); (ch "h", Codes.H);
    (ch "i", Codes.I); (ch "j", Codes.J); (ch "k", Codes.K); (ch "l", Codes.L);
    (ch "m", Codes.M); (ch "n", Codes.N); (ch "o", Codes.O); (ch "p", Codes.P);
    (ch "q", Codes.Q); (ch "r", Codes.R); (ch "s", Codes.S); (ch "t", Codes.T);
    (ch "u", Codes.U); (ch "v", Codes.V); (ch "w", Codes.W); (ch "x", Codes.X);
    (ch "y", Codes.Y); (ch "z", Codes.Z);
    (ch "1", Codes.One); (ch "2", Codes.Two); (ch "3", Codes.Three);
    (ch "4", Codes.Four); (ch "5", Codes.Five); (ch "6", Codes.Six);
    (ch "7", Codes.Seven); (ch "8", Codes.Eight); (ch "9", Codes.Nine);
    (ch "0", Codes.Zero);
    (ch " ", Codes.Space) ].

(** [codesMap], a [map[rune]Code]. *)
Definition codesMap : gmap Z (list Z) := list_to_map codesMap_literal.

(** The loop [for k, v := range codesMap { charsMap[v] = k }] of [init],
    over the entries in the order [range] yields them. *)
Definition fill_charsMap (entries : list (rune * Code)) : gmap (list Z) Z :=
  foldl (fun m kv => <[kv.2 := kv.1]> m) ∅ entries.

(** [charsMap], a [map[Code]rune].  Go leaves the order of [range] over a
    map open; [map_to_list] is one order (see [charsMap_any_order]). *)
Definition charsMap : gmap (list Z) Z := fill_charsMap (map_to_list codesMap).

(** [regexp.MustCompile("[^a-zA-Z0-9\\s]+")]. *)
Definition regexToEscape : Regexp :=
  mkRegexp (fun r => negb (alnum_space r)) 1.

(** [regexp.MustCompile("\\s{2,}")]. *)
Definition regexRedundantSpaces : Regexp := mkRegexp perl_space 2.

(** [charToCode]: the code of [chr]; the empty code and an error when the
    map has no such key. *)
Definition charToCode (chr : rune) : Code * option error :=
  match codesMap !! chr with
  | Some code => (code, None)
  | None => ([], Some (lit "no matching character in the codes map: '"
                        ++ fmt_c chr ++ lit "'"))
  end.

(** [codeToChar]: the character of [code]; the rune 0 and an error when
    the map has no such key. *)
Definition codeToChar (code : Code) : rune * option error :=
  match charsMap !! code with
  | Some chr => (chr, None)
  | None => (0, Some (lit "no matching code in the chars map: '"
                       ++ code ++ lit "'"))
  end.

(** The loop of [Decodable]: it returns at the first code that fails. *)
Fixpoint Decodable (codes : list Code) : bool * option error :=
  match codes with
  | [] => (true, None)
  | code :: rest =>
    match (codeToChar code).2 with
    | Some err => (false, Some err)
    | None => Decodable rest
    end
  end.

(** The loop of [Decode]: a code that fails is skipped. *)
Fixpoint Decode_loop (chars : list rune) (codes : list Code) : list rune :=
  match codes with
  | [] => chars
  | code :: rest =>
    let '(chr, err) := codeToChar code in
    match err with
    | None => Decode_loop (chars ++ [chr]) rest
    | Some _ => Decode_loop chars rest
    end
  end.

(** [Decode]. *)
Definition Decode (codes : list Code) : gostring * option error :=
  let chars := [] in
  match (Decodable codes).2 with
  | None => (string_of_runes (Decode_loop chars codes), None)
  | Some err =>
    (string_of_runes chars,
     Some (lit "'" ++ fmt_v codes ++ lit "' are not decodable: " ++ err))
  end.

(** [Escape]. *)
Definition Escape (text : gostring) : gostring :=
  ReplaceAllString regexRedundantSpaces
    (ReplaceAllString regexToEscape text (lit "")) (lit " ").

(** The loop of [Encodable] over the runes of the lower-cased text: it
    returns at the first character that fails. *)
Fixpoint Encodable_loop (chrs : gostring) : bool * option error :=
  match chrs with
  | [] => (true, None)
  | chr :: rest =>
    match (charToCode chr).2 with
    | Some err => (false, Some err)
    | None => Encodable_loop rest
    end
  end.

(** The loop of [Encode]: a character that fails is skipped. *)
Fixpoint Encode_loop (codes : list Code) (chrs : gostring) : list Code :=
  match chrs with
  | [] => codes
  | chr :: rest =>
    let '(code, err) := charToCode chr in
    match err with
    | None => Encode_loop (codes ++ [code]) rest
    | Some _ => Encode_loop codes rest
    end
  end.

(** [Encodable] and [Encode] for a way of lower-casing the text. *)
Section Folding.

Variable ToLower : gostring -> gostring.

Definition Encodable_with (text : gostring) : bool * option error :=
  Encodable_loop (ToLower text).

Definition Encode_with (text : gostring) : list Code * option error :=
  let codes := [] in
  match (Encodable_with text).2 with
  | None => (Encode_loop codes (ToLower text), None)
  | Some err =>
    (codes, Some (lit "'" ++ text ++ lit "' is not encodable: " ++ err))
  end.

End Folding.

(** [Encodable]: the text is lower-cased with
    [strings.ToLowerSpecial(unicode.TurkishCase, text)]. *)
Definition Encodable (CaseRanges : list CaseRange) : gostring -> bool * option error :=
  Encodable_with (strings_ToLowerSpecial CaseRanges TurkishCase).

(** [Encode]. *)
Definition Encode (CaseRanges : list CaseRange) : gostring -> list Code * option error :=
  Encode_with (strings_ToLowerSpecial CaseRanges TurkishCase).

(** The same two with the ASCII lower-casing of the specification. *)
Definition Encodable_ascii : gostring -> bool * option error :=
  Encodable_with (strings_Map asciiLower).

Definition Encode_ascii : gostring -> list Code * option error :=
  Encode_with (strings_Map asciiLower).


(** ** The vocabulary of the specification *)

(** A supported character: a lower-case Latin letter, a digit or the
    space. *)
Definition supported (c : rune) : bool :=
  in_range 0x61 0x7A c || in_range 0x30 0x39 c || (c =? 0x20).

Definition starts_with_space (s : gostring) : bool :=
  match s with
  | c :: _ => c =? 0x20
  | [] => false
  end.

(** Every space of [s] is followed by a rune that is not a space. *)
Fixpoint single_spaces (s : gostring) : bool :=
  match s with
  | [] => true
  | c :: rest =>
    (if c =? 0x20 then
       match rest with
       | [] => false
       | d :: _ => negb (d =? 0x20)
       end
     else true) && single_spaces rest
  end.

(** A text of lower-case Latin letters, digits and single interior
    spaces. *)
Definition plain_text (s : gostring) : bool :=
  forallb supported s && negb (starts_with_space s) && single_spaces s.

(** The first rune of [s] is in the class [p]. *)
Definition starts_with (p : rune -> bool) (s : gostring) : bool :=
  match s with
  | r :: _ => p r
  | [] => false
  end.

(** Two runes of the class [p] stand side by side in [s]. *)
Fixpoint adjacent (p : rune -> bool) (s : gostring) : bool :=
  match s with
  | r :: rest => (p r && starts_with p rest) || adjacent p rest
  | [] => false
  end.

(** An ASCII character. *)
Definition is_ascii (r : rune) : bool := in_range 0 MaxASCII r.

(** A letter or a digit, of either case. *)
Definition alphanumeric (r : rune) : bool :=
  in_range 0x61 0x7A r || in_range 0x41 0x5A r || in_range 0x30 0x39 r.

(** A code made of the two duration glyphs only. *)
Definition unit_sequence (c : Code) : bool :=
  forallb (fun r => (r =? 0x2022) || (r =? 0x2212)) c.

(** The entries of [unicode.CaseRanges] (tables.go) for the runes up to
    U+00FF: a table to evaluate the package with. *)
Definition CaseRanges_Latin1 : list CaseRange :=
  [ mkCaseRange 0x0041 0x005A [0; 32; 0];
    mkCaseRange 0x0061 0x007A [-32; 0; -32];
    mkCaseRange 0x00B5 0x00B5 [743; 0; 743];
    mkCaseRange 0x00C0 0x00D6 [0; 32; 0];
    mkCaseRange 0x00D8 0x00DE [0; 32; 0];
    mkCaseRange 0x00E0 0x00F6 [-32; 0; -32];
    mkCaseRange 0x00F8 0x00FE [-32; 0; -32];
    mkCaseRange 0x00FF 0x00FF [121; 0; 121] ].

(** ** Playback *)

(** The constants for the beep sounds. *)
Definition hz : Z := 800.
Definition wpm : Z := 10.
Definition durationShort : Z := 1200 / wpm.
Definition durationLong : Z := durationShort * 3.
Definition durationGap : Z := durationShort * 2.

(** [time.Millisecond] and [time.Second], in nanoseconds. *)
Definition Millisecond : Z := 1000000.
Definition Second : Z := 1000000000.

(** [beep.SampleRate.N]: the number of samples that last for [d]
    nanoseconds, [int(d * time.Duration(sr) / time.Second)]. *)
Definition SampleRate_N (sr d : Z) : Z := Z.quot (d * sr) Second.

(** What [Beep] does to the outside, call by call: [speaker.Init] with the
    sample rate and the size of the buffer, [time.Sleep] with the
    nanoseconds to sleep, and [speaker.Play] of a streamer that is cut
    after a number of samples; [Beep] waits on its channel for the end of
    each [speaker.Play] before it goes on. *)
Inductive call : Type :=
| speaker_Init (sampleRate bufferSize : Z)
| time_Sleep (d : Z)
| speaker_Play (samples : Z).

(** The milliseconds of a glyph of a code: the [switch] on
    [Duration(chr)], which leaves [duration] at zero for a rune that is
    neither of the two durations. *)
Definition glyph_duration (chr : rune) : Z :=
  if bool_decide ([utf8 chr] = Dit) then durationShort
  else if bool_decide ([utf8 chr] = Dah) then durationLong
  else 0.

(** The inner loop of [Beep], over the runes of one code. *)
Definition Beep_code (sr : Z) (code : Code) : list call :=
  map (fun chr => speaker_Play (SampleRate_N sr (glyph_duration chr * Millisecond)))
      code.

(** The outer loop of [Beep], from the index [i] on. *)
Fixpoint Beep_loop (sr : Z) (i : nat) (codes : list Code) : list call :=
  match codes with
  | [] => []
  | code :: rest =>
    (if (0 <? i)%nat then [time_Sleep (durationGap * Millisecond)] else [])
      ++ Beep_code sr code ++ Beep_loop sr (S i) rest
  end.

(** [Beep]. *)
Definition Beep (codes : list Code) : list call :=
  let sr := 44100 in
  speaker_Init sr (SampleRate_N sr (Second / 100)) :: Beep_loop sr 0 codes.

(** The nanoseconds slept and the samples played by a list of calls. *)
Definition slept (calls : list call) : Z :=
  foldr (fun c acc => match c with time_Sleep d => d + acc | _ => acc end) 0 calls.

Definition played (calls : list call) : Z :=
  foldr (fun c acc => match c with speaker_Play n => n + acc | _ => acc end) 0 calls.

Definition is_Sleep (c : call) : bool :=
  match c with time_Sleep _ => true | _ => false end.

(** The number of runes [chr] in the codes. *)
Definition count_glyph (chr : rune) (codes : list Code) : Z :=
  Z.of_nat (length (List.filter (Z.eqb chr) (concat codes))).

(** ** Further vocabulary *)

(** [strings.ToLower], Go's lower-casing without a special case. *)
Definition strings_ToLower (CaseRanges : list CaseRange) (s : gostring) : gostring :=
  strings_Map (unicode_ToLower CaseRanges) s.

(** The ASCII characters that [Encodable] accepts: the letters of either
    case but the capital I, the digits and the space. *)
Definition encodable_ascii (r : rune) : bool :=
  in_range 0x61 0x7A r || (in_range 0x41 0x5A r && negb (r =? 0x49))
  || in_range 0x30 0x39 r || (r =? 0x20).

(** Decides a closed statement by evaluation. *)
Ltac by_evaluation := apply (bool_decide_unpack _); vm_compute; exact I.

(** ** The binary search of [unicode.to] *)

(** The fuel of [to_loop] is enough once it exceeds [hi - lo]: the result
    is the same with any other such amount. *)
Lemma to_loop_fuel (fuel fuel' : nat) (_case : nat) (r : rune)
      (caseRange : list CaseRange) (lo hi : Z) :
  (Z.to_nat (hi - lo) < fuel)%nat -> (Z.to_nat (hi - lo) < fuel')%nat ->
  to_loop fuel _case r caseRange lo hi = to_loop fuel' _case r caseRange lo hi.
Proof.
  revert fuel' lo hi. induction fuel as [|fuel IH]; intros fuel' lo hi Hf Hf'.
  - lia.
  - destruct fuel' as [|fuel']; [lia|]. cbn [to_loop].
    destruct (Z.ltb_spec lo hi) as [Hlt|Hge]; [|reflexivity].
    assert (lo <= Z.shiftr (lo + hi) 1 < hi) as Hm.
    { rewrite Z.shiftr_div_pow2 by lia. change (2 ^ 1) with 2.
      split; [apply Z.div_le_lower_bound|apply Z.div_lt_upper_bound]; lia. }
    destruct (caseRange !! Z.to_nat (Z.shiftr (lo + hi) 1)) as [cr|]; [|reflexivity].
    destruct ((Lo cr <=? r) && (r <=? Hi cr)); [reflexivity|].
    destruct (r <? Lo cr); apply IH; lia.
Qed.

(** [to] gives its loop enough fuel. *)
Lemma to_enough_fuel (extra : nat) (_case : nat) (r : rune)
      (caseRange : list CaseRange) :
  to_loop (S (length caseRange) + extra) _case r caseRange
          0 (Z.of_nat (length caseRange))
  = to_loop (S (length caseRange)) _case r caseRange
            0 (Z.of_nat (length caseRange)).
Proof. apply to_loop_fuel; lia. Qed.

(** ** The lookup tables *)

Lemma codesMap_literal_keys : NoDup codesMap_literal.*1.
Proof. by_evaluation. Qed.

Lemma codesMap_literal_codes : NoDup codesMap_literal.*2.
Proof. by_evaluation. Qed.

Lemma codesMap_lookup (chr : rune) (code : Code) :
  codesMap !! chr = Some code <-> (chr, code) ∈ codesMap_literal.
Proof.
  unfold codesMap. split.
  - apply elem_of_list_to_map_2.
  - apply elem_of_list_to_map_1, codesMap_literal_keys.
Qed.

Lemma codesMap_entries : map_to_list codesMap ≡ₚ codesMap_literal.
Proof. apply map_to_list_to_map, codesMap_literal_keys. Qed.

Lemma fill_charsMap_snoc entries (kv : Z * list Z) :
  fill_charsMap (entries ++ [kv]) = <[kv.2 := kv.1]> (fill_charsMap entries).
Proof. unfold fill_charsMap. rewrite foldl_app. reflexivity. Qed.

Lemma fill_charsMap_lookup (entries : list (Z * list Z)) (code : Code) (chr : rune) :
  NoDup entries.*2 ->
  fill_charsMap entries !! code = Some chr <-> (chr, code) ∈ entries.
Proof.
  induction entries as [|[k v] entries IH] using rev_ind; intros Hnd.
  - unfold fill_charsMap. cbn. rewrite lookup_empty. set_solver.
  - rewrite fill_charsMap_snoc. cbn.
    rewrite fmap_app in Hnd. apply NoDup_app in Hnd as (Hnd & Hfresh & _).
    rewrite elem_of_app, list_elem_of_singleton.
    destruct (decide (v = code)) as [->|Hne].
    + rewrite lookup_insert_eq. split.
      * intros [= ->]. now right.
      * intros [Hin|[= ->]]; [|reflexivity].
        exfalso. apply (Hfresh code).
        -- apply list_elem_of_fmap. exists (chr, code). auto.
        -- cbn. left.
    + rewrite lookup_insert_ne by assumption. rewrite IH by assumption.
      split; [auto|]. intros [Hin|[= -> ->]]; [assumption|congruence].
Qed.

Lemma charsMap_lookup (code : Code) (chr : rune) :
  charsMap !! code = Some chr <-> codesMap !! chr = Some code.
Proof.
  unfold charsMap. rewrite fill_charsMap_lookup.
  - apply elem_of_map_to_list.
  - rewrite codesMap_entries. apply codesMap_literal_codes.
Qed.

Lemma charsMap_any_order (entries : list (Z * list Z)) :
  entries ≡ₚ map_to_list codesMap -> fill_charsMap entries = charsMap.
Proof.
  intros Hperm. apply map_eq. intros code. apply option_eq. intros chr.
  rewrite charsMap_lookup, fill_charsMap_lookup.
  - rewrite Hperm. apply elem_of_map_to_list.
  - rewrite Hperm, codesMap_entries. apply codesMap_literal_codes.
Qed.

(** ** Supported characters *)

Lemma range_cases (P : Z -> Prop) (lo : Z) (n : nat) :
  Forall P (seqZ lo (Z.of_nat n)) -> forall c, lo <= c < lo + Z.of_nat n -> P c.
Proof.
  rewrite Forall_forall. intros HP c Hc. apply HP, elem_of_seqZ. lia.
Qed.

Lemma supported_cases (P : Z -> Prop) :
  Forall P (seqZ 0x61 26 ++ seqZ 0x30 10 ++ [0x20]) ->
  forall c, supported c = true -> P c.
Proof.
  rewrite !Forall_app, Forall_singleton. intros (Hletter & Hdigit & Hspace) c.
  unfold supported, in_range. intros Hc.
  destruct (Z.eqb_spec c 0x20) as [Heq|Hne]; [subst c; exact Hspace|].
  rewrite orb_false_r in Hc. apply orb_true_iff in Hc as [Hc|Hc];
    apply andb_true_iff in Hc as [Hlo Hhi];
    apply Z.leb_le in Hlo; apply Z.leb_le in Hhi.
  - apply (range_cases P 0x61 26 Hletter). lia.
  - apply (range_cases P 0x30 10 Hdigit). lia.
Qed.

Lemma supported_key (c : rune) :
  supported c = true <-> c ∈ codesMap_literal.*1.
Proof.
  split.
  - revert c. apply supported_cases. by_evaluation.
  - revert c. apply Forall_forall. by_evaluation.
Qed.

Lemma supported_lookup (c : rune) :
  supported c = true <-> is_Some (codesMap !! c).
Proof.
  rewrite supported_key. split.
  - intros Hin. apply list_elem_of_fmap in Hin as ([k code] & -> & Hin).
    exists code. now apply codesMap_lookup.
  - intros [code Hcode]. apply codesMap_lookup in Hcode.
    apply list_elem_of_fmap. now exists (c, code).
Qed.

Lemma unsupported_lookup (c : rune) :
  supported c = false <-> codesMap !! c = None.
Proof.
  rewrite eq_None_not_Some, <- supported_lookup. now destruct (supported c).
Qed.

Lemma supported_utf8 (c : rune) : supported c = true -> utf8 c = c.
Proof. revert c. apply supported_cases. by_evaluation. Qed.

Lemma supported_ToLower (CaseRanges : list CaseRange) (c : rune) :
  supported c = true -> SpecialCase_ToLower CaseRanges TurkishCase c = c.
Proof. revert c. apply supported_cases. by_evaluation. Qed.

(** ** The two directions of the lookup *)

Lemma charToCode_found (chr : rune) (code : Code) :
  codesMap !! chr = Some code -> charToCode chr = (code, None).
Proof. unfold charToCode. now intros ->. Qed.

Lemma charToCode_missing (chr : rune) :
  codesMap !! chr = None ->
  charToCode chr =
    ([], Some (lit "no matching character in the codes map: '"
               ++ fmt_c chr ++ lit "'")).
Proof. unfold charToCode. now intros ->. Qed.

Lemma codeToChar_found (code : Code) (chr : rune) :
  charsMap !! code = Some chr -> codeToChar code = (chr, None).
Proof. unfold codeToChar. now intros ->. Qed.

Lemma codeToChar_missing (code : Code) :
  charsMap !! code = None ->
  codeToChar code =
    (0, Some (lit "no matching code in the chars map: '" ++ code ++ lit "'")).
Proof. unfold codeToChar. now intros ->. Qed.

Lemma codeToChar_charToCode (c : rune) :
  supported c = true -> codeToChar (charToCode c).1 = (c, None).
Proof.
  intros Hc. apply supported_lookup in Hc as [code Hcode].
  rewrite (charToCode_found _ _ Hcode). cbn.
  apply codeToChar_found, charsMap_lookup, Hcode.
Qed.

(** ** The loops *)

Lemma strings_Map_id (mapping : rune -> rune) (s : gostring) :
  Forall (fun c => mapping c = c /\ utf8 c = c) s -> strings_Map mapping s = s.
Proof.
  induction 1 as [|c s [Hmap Hutf] _ IH]; [reflexivity|].
  unfold strings_Map in *. cbn. rewrite IH, Hmap, Hutf.
  assert (0 <= c) as Hpos.
  { unfold utf8, ValidRune, RuneError in Hutf.
    destruct (Z.leb_spec 0 c); [assumption|].
    destruct (Z.ltb_spec 0xDFFF c); [lia|]. cbn in Hutf. lia. }
  apply Z.leb_le in Hpos. now rewrite Hpos.
Qed.

Lemma strings_Map_ext (f g : rune -> rune) (s : gostring) :
  Forall (fun c => f c = g c) s -> strings_Map f s = strings_Map g s.
Proof.
  induction 1 as [|c s Hc _ IH]; [reflexivity|].
  unfold strings_Map in *. cbn. now rewrite IH, Hc.
Qed.

Lemma Encodable_loop_ok (chrs : gostring) :
  Forall (fun c => is_Some (codesMap !! c)) chrs ->
  Encodable_loop chrs = (true, None).
Proof.
  induction 1 as [|c chrs [code Hc] _ IH]; [reflexivity|].
  cbn. now rewrite (charToCode_found _ _ Hc).
Qed.

Lemma Encodable_loop_first (pre : gostring) (chr : rune) (post : gostring) :
  Forall (fun c => is_Some (codesMap !! c)) pre ->
  codesMap !! chr = None ->
  Encodable_loop (pre ++ chr :: post) = (false, (charToCode chr).2).
Proof.
  intros Hpre Hchr. induction Hpre as [|c pre [code Hc] _ IH]; cbn.
  - now rewrite (charToCode_missing _ Hchr).
  - now rewrite (charToCode_found _ _ Hc).
Qed.

(** The loop of [Encodable] ends in one of two ways. *)
Lemma Encodable_loop_cases (chrs : gostring) :
  (Forall (fun c => is_Some (codesMap !! c)) chrs /\
   Encodable_loop chrs = (true, None))
  \/ exists pre chr post,
       chrs = pre ++ chr :: post /\
       Forall (fun c => is_Some (codesMap !! c)) pre /\
       codesMap !! chr = None /\
       Encodable_loop chrs = (false, (charToCode chr).2).
Proof.
  induction chrs as [|c chrs IH].
  - left. split; [constructor|reflexivity].
  - destruct (codesMap !! c) as [code|] eqn:Hc.
    + destruct IH as [[Hall Hok]|(pre & chr & post & -> & Hpre & Hchr & Hres)].
      * left. split; [constructor; eauto|].
        cbn. now rewrite (charToCode_found _ _ Hc).
      * right. exists (c :: pre), chr, post. repeat split; try assumption.
        -- constructor; eauto.
        -- cbn. now rewrite (charToCode_found _ _ Hc).
    + right. exists [], c, chrs. repeat split; try assumption; [constructor|].
      cbn. now rewrite (charToCode_missing _ Hc).
Qed.

Lemma Encode_loop_all (codes : list Code) (chrs : gostring) :
  Forall (fun c => is_Some (codesMap !! c)) chrs ->
  Encode_loop codes chrs = codes ++ map (fun c => (charToCode c).1) chrs.
Proof.
  intros Hall. revert codes.
  induction Hall as [|c chrs [code Hc] _ IH]; intros codes; cbn.
  - now rewrite app_nil_r.
  - rewrite (charToCode_found _ _ Hc), IH. cbn. now rewrite <- app_assoc.
Qed.

Lemma Decodable_ok (codes : list Code) :
  Forall (fun code => is_Some (charsMap !! code)) codes ->
  Decodable codes = (true, None).
Proof.
  induction 1 as [|code codes [c Hc] _ IH]; [reflexivity|].
  cbn. now rewrite (codeToChar_found _ _ Hc).
Qed.

Lemma Decodable_cases (codes : list Code) :
  (Forall (fun code => is_Some (charsMap !! code)) codes /\
   Decodable codes = (true, None))
  \/ exists pre code post,
       codes = pre ++ code :: post /\
       Forall (fun code => is_Some (charsMap !! code)) pre /\
       charsMap !! code = None /\
       Decodable codes = (false, (codeToChar code).2).
Proof.
  induction codes as [|c codes IH].
  - left. split; [constructor|reflexivity].
  - destruct (charsMap !! c) as [chr|] eqn:Hc.
    + destruct IH as [[Hall Hok]|(pre & code & post & -> & Hpre & Hcode & Hres)].
      * left. split; [constructor; eauto|].
        cbn. now rewrite (codeToChar_found _ _ Hc).
      * right. exists (c :: pre), code, post. repeat split; try assumption.
        -- constructor; eauto.
        -- cbn. now rewrite (codeToChar_found _ _ Hc).
    + right. exists [], c, codes. repeat split; try assumption; [constructor|].
      cbn. now rewrite (codeToChar_missing _ Hc).
Qed.

Lemma Decode_loop_codes (chars : list rune) (chrs : gostring) :
  Forall (fun c => supported c = true) chrs ->
  Decode_loop chars (map (fun c => (charToCode c).1) chrs) = chars ++ chrs.
Proof.
  intros Hall. revert chars.
  induction Hall as [|c chrs Hc _ IH]; intros chars; cbn.
  - now rewrite app_nil_r.
  - rewrite (codeToChar_charToCode _ Hc), IH. now rewrite <- app_assoc.
Qed.

Lemma Decodable_codes (chrs : gostring) :
  Forall (fun c => supported c = true) chrs ->
  Decodable (map (fun c => (charToCode c).1) chrs) = (true, None).
Proof.
  induction 1 as [|c chrs Hc _ IH]; [reflexivity|].
  cbn. now rewrite (codeToChar_charToCode _ Hc).
Qed.

Lemma string_of_runes_supported (chrs : gostring) :
  Forall (fun c => supported c = true) chrs -> string_of_runes chrs = chrs.
Proof.
  induction 1 as [|c chrs Hc _ IH]; [reflexivity|].
  unfold string_of_runes in *. cbn. now rewrite IH, (supported_utf8 _ Hc).
Qed.

Lemma ToLowerSpecial_supported (CaseRanges : list CaseRange) (text : gostring) :
  Forall (fun c => supported c = true) text ->
  strings_ToLowerSpecial CaseRanges TurkishCase text = text.
Proof.
  intros Hall. apply strings_Map_id.
  eapply Forall_impl; [exact Hall|]. intros c Hc. split.
  - now apply supported_ToLower.
  - now apply supported_utf8.
Qed.

(** Encoding a text of supported characters, and decoding the result. *)
Lemma Encode_supported (CaseRanges : list CaseRange) (text : gostring) :
  Forall (fun c => supported c = true) text ->
  Encode CaseRanges text = (map (fun c => (charToCode c).1) text, None).
Proof.
  intros Hall. unfold Encode, Encode_with, Encodable_with.
  rewrite (ToLowerSpecial_supported _ _ Hall).
  assert (Forall (fun c => is_Some (codesMap !! c)) text) as Hcodes.
  { eapply Forall_impl; [exact Hall|]. intros c. apply supported_lookup. }
  rewrite (Encodable_loop_ok _ Hcodes). cbn.
  now rewrite (Encode_loop_all _ _ Hcodes).
Qed.

Lemma Decode_codes (text : gostring) :
  Forall (fun c => supported c = true) text ->
  Decode (map (fun c => (charToCode c).1) text) = (text, None).
Proof.
  intros Hall. unfold Decode.
  rewrite (Decodable_codes _ Hall). cbn [snd].
  rewrite (Decode_loop_codes _ _ Hall), app_nil_l.
  now rewrite (string_of_runes_supported _ Hall).
Qed.

(** ** Replacing the matches of a pattern *)

Lemma ReplaceAllString_cons (re : Regexp) (r : rune) (s repl : gostring) :
  ReplaceAllString re (r :: s) repl =
    match match_here re (r :: s) with
    | Some (S k) => repl ++ ReplaceAllString re (drop k s) repl
    | _ => r :: ReplaceAllString re s repl
    end.
Proof.
  simp ReplaceAllString. destruct (match_here re (r :: s)) as [[|k]|]; reflexivity.
Qed.

(** Induction on the length of a string. *)
Lemma length_ind (P : gostring -> Prop) :
  (forall s, (forall t, (length t < length s)%nat -> P t) -> P s) ->
  forall s, P s.
Proof.
  intros Hstep s. remember (length s) as n eqn:Hn. revert s Hn.
  induction n as [n IH] using lt_wf_ind. intros s ->.
  apply Hstep. intros t Ht. exact (IH _ Ht t eq_refl).
Qed.

Lemma run_length_0 (p : rune -> bool) (s : gostring) :
  starts_with p s = false -> run_length p s = O.
Proof. destruct s as [|r s]; cbn; [reflexivity|]. now intros ->. Qed.

Lemma drop_run_length (p : rune -> bool) (s : gostring) :
  starts_with p (drop (run_length p s) s) = false.
Proof.
  induction s as [|r s IH]; [reflexivity|].
  cbn. destruct (p r) eqn:Hr; cbn; [exact IH|exact Hr].
Qed.

(** What a match at the head of [r :: s] says. *)
Lemma match_here_Some (re : Regexp) (r : rune) (s : gostring) (k : nat) :
  match_here re (r :: s) = Some (S k) ->
  class re r = true /\ k = run_length (class re) s /\ (atLeast re <= S k)%nat.
Proof.
  unfold match_here. cbn. destruct (class re r); cbn.
  - destruct (atLeast re <=? S (run_length (class re) s))%nat eqn:Hle; [|discriminate].
    intros [= <-]. apply Nat.leb_le in Hle. auto.
  - rewrite andb_false_r. discriminate.
Qed.

Lemma match_here_not_Some (re : Regexp) (r : rune) (s : gostring) :
  (forall k, match_here re (r :: s) <> Some (S k)) ->
  class re r = false \/ (S (run_length (class re) s) < atLeast re)%nat.
Proof.
  unfold match_here. cbn. destruct (class re r); cbn; [|auto].
  destruct (Nat.leb_spec (atLeast re) (S (run_length (class re) s))) as [Hle|Hlt].
  - intros Hno. now destruct (Hno (run_length (class re) s)).
  - auto.
Qed.

(** The cases of one step of [ReplaceAllString] on [r :: s]. *)
Lemma ReplaceAllString_step (re : Regexp) (r : rune) (s repl : gostring) :
  (class re r = true /\ (atLeast re <= S (run_length (class re) s))%nat /\
   ReplaceAllString re (r :: s) repl =
     repl ++ ReplaceAllString re (drop (run_length (class re) s) s) repl)
  \/ ((class re r = false \/ (S (run_length (class re) s) < atLeast re)%nat) /\
      ReplaceAllString re (r :: s) repl = r :: ReplaceAllString re s repl).
Proof.
  rewrite ReplaceAllString_cons.
  destruct (match_here re (r :: s)) as [[|k]|] eqn:Hm.
  - right. split; [|reflexivity]. apply match_here_not_Some. congruence.
  - left. apply match_here_Some in Hm as (Hr & -> & Hle). auto.
  - right. split; [|reflexivity]. apply match_here_not_Some. congruence.
Qed.

(** With the pattern [[class]+] and an empty replacement, what is left
    are the runes outside the class. *)
Lemma ReplaceAllString_delete (re : Regexp) (s : gostring) :
  atLeast re = 1%nat ->
  ReplaceAllString re s [] = List.filter (fun r => negb (class re r)) s.
Proof.
  intros Hone. induction s as [s IH] using length_ind.
  destruct s as [|r s]; [now simp ReplaceAllString|].
  destruct (ReplaceAllString_step re r s []) as [(Hr & _ & ->)|([Hr|Hlt] & ->)].
  - cbn. rewrite Hr. cbn. rewrite IH by (rewrite length_drop; cbn; lia).
    clear IH. induction s as [|c s IHs]; [reflexivity|].
    cbn. destruct (class re c) eqn:Hc; cbn; rewrite ?Hc; [exact IHs|reflexivity].
  - cbn. rewrite Hr. cbn. f_equal. apply IH. cbn. lia.
  - lia.
Qed.

Lemma filter_Forall_id (p : rune -> bool) (s : gostring) :
  Forall (fun r => p r = true) s -> List.filter p s = s.
Proof. induction 1 as [|r s Hr _ IH]; cbn; [reflexivity|]. now rewrite Hr, IH. Qed.

Lemma filter_Forall (p : rune -> bool) (s : gostring) :
  Forall (fun r => p r = true) (List.filter p s).
Proof.
  induction s as [|r s IH]; cbn; [constructor|].
  destruct (p r) eqn:Hr; [constructor; assumption|assumption].
Qed.

(** A property of the runes of the text and of the replacement holds of
    the runes of the result. *)
Lemma ReplaceAllString_Forall (P : rune -> Prop) (re : Regexp) (s repl : gostring) :
  Forall P repl -> Forall P s -> Forall P (ReplaceAllString re s repl).
Proof.
  intros Hrepl. induction s as [s IH] using length_ind. intros Hs.
  destruct s as [|r s]; [simp ReplaceAllString; constructor|].
  apply Forall_cons in Hs as [Hr Hs].
  destruct (ReplaceAllString_step re r s repl) as [(_ & _ & ->)|(_ & ->)].
  - apply Forall_app. split; [assumption|].
    apply IH; [rewrite length_drop; cbn; lia|now apply Forall_drop].
  - constructor; [assumption|]. apply IH; [cbn; lia|assumption].
Qed.

(** The result starts with a rune of the class exactly when the text
    does, if the replacement does. *)
Lemma ReplaceAllString_starts (re : Regexp) (s repl : gostring) :
  starts_with (class re) repl = true ->
  starts_with (class re) (ReplaceAllString re s repl) = starts_with (class re) s.
Proof.
  intros Hrepl. destruct s as [|r s]; [now simp ReplaceAllString|].
  destruct (ReplaceAllString_step re r s repl) as [(Hr & _ & ->)|(_ & ->)].
  - destruct repl as [|c repl]; [discriminate|]. cbn in *. congruence.
  - reflexivity.
Qed.

(** With a replacement of one rune, no run of two is left when the
    pattern takes the runs of two or more. *)
Lemma ReplaceAllString_no_adjacent (re : Regexp) (c : rune) (s : gostring) :
  atLeast re = 2%nat -> class re c = true ->
  adjacent (class re) (ReplaceAllString re s [c]) = false.
Proof.
  intros Htwo Hc. induction s as [s IH] using length_ind.
  destruct s as [|r s]; [now simp ReplaceAllString|].
  destruct (ReplaceAllString_step re r s [c]) as [(Hr & _ & ->)|(Hcase & ->)].
  - cbn. rewrite Hc. cbn.
    rewrite ReplaceAllString_starts by (cbn; assumption).
    rewrite drop_run_length. cbn.
    apply IH. rewrite length_drop. cbn. lia.
  - cbn. rewrite ReplaceAllString_starts by (cbn; assumption).
    rewrite IH by (cbn; lia). rewrite orb_false_r.
    destruct Hcase as [Hr|Hlt]; [now rewrite Hr|].
    assert (run_length (class re) s = O) as Hrun by lia.
    destruct s as [|r' s]; [now rewrite andb_false_r|].
    cbn in *. destruct (class re r'); [discriminate|]. now rewrite andb_false_r.
Qed.

(** A text without a run of two has no match. *)
Lemma ReplaceAllString_no_match (re : Regexp) (s repl : gostring) :
  atLeast re = 2%nat -> adjacent (class re) s = false ->
  ReplaceAllString re s repl = s.
Proof.
  intros Htwo. induction s as [|r s IH]; intros Hadj; [now simp ReplaceAllString|].
  cbn in Hadj. apply orb_false_iff in Hadj as [Hhead Hadj].
  destruct (ReplaceAllString_step re r s repl) as [(Hr & Hle & _)|(_ & ->)].
  - exfalso. rewrite Hr in Hhead. cbn in Hhead.
    rewrite (run_length_0 _ _ Hhead) in Hle. lia.
  - now rewrite IH.
Qed.

(** [Escape] in two steps: the runes outside [[a-zA-Z0-9\s]] are deleted,
    then the runs of white space are replaced. *)
Lemma Escape_filter (text : gostring) :
  Escape text =
    ReplaceAllString regexRedundantSpaces (List.filter alnum_space text) (lit " ").
Proof.
  unfold Escape. change (lit "") with (@nil Z).
  rewrite ReplaceAllString_delete by reflexivity. cbn [class regexToEscape].
  f_equal. clear. induction text as [|r s IH]; cbn; [reflexivity|].
  rewrite negb_involutive. now rewrite IH.
Qed.

Lemma Escape_alnum_space (text : gostring) :
  Forall (fun r => alnum_space r = true) (Escape text).
Proof.
  rewrite Escape_filter. apply ReplaceAllString_Forall.
  - repeat constructor.
  - apply filter_Forall.
Qed.

Lemma Escape_no_adjacent (text : gostring) :
  adjacent perl_space (Escape text) = false.
Proof.
  rewrite Escape_filter.
  apply (ReplaceAllString_no_adjacent regexRedundantSpaces 0x20); reflexivity.
Qed.

(** [Escape] leaves a text of letters, digits and white space without a
    run of white space as it is. *)
Lemma Escape_fixed (text : gostring) :
  Forall (fun r => alnum_space r = true) text ->
  adjacent perl_space text = false ->
  Escape text = text.
Proof.
  intros Hall Hadj. rewrite Escape_filter, filter_Forall_id by assumption.
  now apply (ReplaceAllString_no_match regexRedundantSpaces).
Qed.

(** ** Lower-casing *)

Lemma ascii_cases (P : Z -> Prop) :
  Forall P (seqZ 0 128) -> forall r, is_ascii r = true -> P r.
Proof.
  intros HP r Hr. unfold is_ascii, in_range, MaxASCII in Hr.
  apply andb_true_iff in Hr as [Hlo Hhi].
  apply Z.leb_le in Hlo. apply Z.leb_le in Hhi.
  apply (range_cases P 0 128 HP). lia.
Qed.

(** On the ASCII characters the Turkish lower-casing and the ASCII one
    differ at the capital I only. *)
Lemma Turkish_asciiLower (CaseRanges : list CaseRange) (r : rune) :
  is_ascii r = true -> r <> 0x49 ->
  SpecialCase_ToLower CaseRanges TurkishCase r = asciiLower r.
Proof.
  intros Hr Hne.
  assert (r = 0x49 \/ SpecialCase_ToLower CaseRanges TurkishCase r = asciiLower r)
    as [Heq|Heq]; [|contradiction|assumption].
  clear Hne. revert r Hr. apply ascii_cases. by_evaluation.
Qed.

Lemma alnum_space_ascii (r : rune) : alnum_space r = true -> is_ascii r = true.
Proof.
  unfold alnum_space, perl_space, is_ascii, in_range, MaxASCII. intros Hr.
  apply andb_true_iff. rewrite Z.leb_le, Z.leb_le.
  repeat (apply orb_true_iff in Hr as [Hr|Hr]);
    try (apply andb_true_iff in Hr as [Hlo Hhi];
         apply Z.leb_le in Hlo; apply Z.leb_le in Hhi; lia);
    apply Z.eqb_eq in Hr; lia.
Qed.

(** A letter other than the capital I, a digit or the space is lower-cased
    to a supported character. *)
Lemma Turkish_lower_supported (CaseRanges : list CaseRange) (r : rune) :
  alnum_space r = true -> r <> 0x49 -> (perl_space r = true -> r = 0x20) ->
  let c := SpecialCase_ToLower CaseRanges TurkishCase r in
  0 <= c /\ supported (utf8 c) = true.
Proof.
  intros Hr. pose proof (alnum_space_ascii r Hr) as Hascii. revert Hr.
  revert r Hascii.
  apply (ascii_cases (fun r =>
    alnum_space r = true -> r <> 0x49 -> (perl_space r = true -> r = 0x20) ->
    0 <= SpecialCase_ToLower CaseRanges TurkishCase r /\
    supported (utf8 (SpecialCase_ToLower CaseRanges TurkishCase r)) = true)).
  by_evaluation.
Qed.

Lemma strings_Map_Forall (P : rune -> Prop) (mapping : rune -> rune) (s : gostring) :
  Forall (fun r => 0 <= mapping r /\ P (utf8 (mapping r))) s ->
  Forall P (strings_Map mapping s).
Proof.
  induction 1 as [|r s [Hpos HP] _ IH]; [constructor|].
  unfold strings_Map in *. cbn. apply Z.leb_le in Hpos. rewrite Hpos.
  now constructor.
Qed.

Lemma Forall_filter_keep (P : rune -> Prop) (p : rune -> bool) (s : gostring) :
  Forall P s -> Forall P (List.filter p s).
Proof.
  induction 1 as [|r s Hr _ IH]; cbn; [constructor|].
  destruct (p r); [now constructor|assumption].
Qed.

(** ** Escaping *)

(** [Escape] keeps a property of the runes that holds of the space. *)
Lemma Escape_Forall (P : rune -> Prop) (text : gostring) :
  P 0x20 -> Forall P text -> Forall P (Escape text).
Proof.
  intros Hspace Hall. rewrite Escape_filter. apply ReplaceAllString_Forall.
  - now repeat constructor.
  - now apply Forall_filter_keep.
Qed.

(** X1. Where [Escape] does make the text encodable: on a text without the
    capital I and without a tab, line feed, form feed or carriage
    return. *)
Lemma Escape_Encodable (CaseRanges : list CaseRange) (text : gostring) :
  Forall (fun r => r <> 0x49 /\ (perl_space r = true -> r = 0x20)) text ->
  Encodable CaseRanges (Escape text) = (true, None).
Proof.
  intros Hall. unfold Encodable, Encodable_with.
  apply Encodable_loop_ok, strings_Map_Forall.
  pose proof (Escape_alnum_space text) as Halnum.
  apply (Escape_Forall _ text) in Hall; [|split; [lia|reflexivity]].
  rewrite Forall_forall in *. intros r Hr.
  destruct (Hall r Hr) as [HI Hws].
  destruct (Turkish_lower_supported CaseRanges r (Halnum r Hr) HI Hws) as [Hpos Hsup].
  split; [assumption|]. now apply supported_lookup.
Qed.

Lemma Escape_Encodable_witness :
  Forall (fun r => r <> 0x49 /\ (perl_space r = true -> r = 0x20))
         (lit "The Quick & Brown Fox, Jumps Over The Lazy Dog...?!") /\
  Encodable CaseRanges_Latin1
    (Escape (lit "The Quick & Brown Fox, Jumps Over The Lazy Dog...?!"))
    = (true, None).
Proof.
  assert (Forall (fun r => r <> 0x49 /\ (perl_space r = true -> r = 0x20))
            (lit "The Quick & Brown Fox, Jumps Over The Lazy Dog...?!")) as Hall
    by by_evaluation.
  split; [exact Hall|]. exact (Escape_Encodable CaseRanges_Latin1 _ Hall).
Defined.

(** A text of white space without a run of two is at most one rune. *)
Lemma no_adjacent_all (p : rune -> bool) (s : gostring) :
  Forall (fun r => p r = true) s -> adjacent p s = false ->
  s = [] \/ exists w, p w = true /\ s = [w].
Proof.
  intros Hall Hadj. destruct s as [|w [|w' s]]; [now left| |].
  - right. exists w. split; [|reflexivity]. now apply Forall_cons in Hall as [Hw _].
  - exfalso. apply Forall_cons in Hall as [Hw Hall].
    apply Forall_cons in Hall as [Hw' _].
    cbn in Hadj. rewrite Hw, Hw' in Hadj. discriminate.
Qed.

(** X2. What [Escape] leaves of a text without a letter or digit: nothing,
    or one character of white space. *)
Lemma Escape_non_alphanumeric (text : gostring) :
  Forall (fun r => alphanumeric r = false) text ->
  Escape text = [] \/ exists w, perl_space w = true /\ Escape text = [w].
Proof.
  intros Hall. apply no_adjacent_all; [|apply Escape_no_adjacent].
  pose proof (Escape_alnum_space text) as Halnum.
  apply (Escape_Forall _ text) in Hall; [|reflexivity].
  rewrite Forall_forall in *. intros r Hr.
  specialize (Hall r Hr). specialize (Halnum r Hr).
  unfold alnum_space in Halnum. unfold alphanumeric in Hall.
  rewrite Hall in Halnum. exact Halnum.
Qed.

Lemma Escape_non_alphanumeric_witness :
  Forall (fun r => alphanumeric r = false) (lit "...?! &") /\
  (Escape (lit "...?! &") = [] \/
   exists w, perl_space w = true /\ Escape (lit "...?! &") = [w]).
Proof.
  assert (Forall (fun r => alphanumeric r = false) (lit "...?! &")) as Hall
    by by_evaluation.
  split; [exact Hall|]. exact (Escape_non_alphanumeric _ Hall).
Defined.

Lemma plain_text_supported (text : gostring) :
  plain_text text = true -> Forall (fun c => supported c = true) text.
Proof.
  unfold plain_text. intros Hplain.
  apply andb_true_iff in Hplain as [Hplain _].
  apply andb_true_iff in Hplain as [Hall _].
  apply Forall_forall. intros c Hc.
  rewrite forallb_forall in Hall. apply Hall. now apply list_elem_of_In.
Qed.

Lemma CodeFromDurations_collect (strs durations : list Duration) :
  foldl (fun strs d => strs ++ [d]) strs durations = strs ++ durations.
Proof.
  revert strs. induction durations as [|d durations IH]; intros strs; cbn.
  - now rewrite app_nil_r.
  - rewrite IH. now rewrite <- app_assoc.
Qed.

Lemma strings_Join_empty (elems : list gostring) :
  strings_Join elems [] = concat elems.
Proof.
  induction elems as [|e [|e' elems] IH]; cbn in *.
  - reflexivity.
  - now rewrite app_nil_r.
  - now rewrite IH.
Qed.

(** ** The properties of the specification *)


(** C1. Round trip: for a text of lower-case Latin letters, digits and single
    interior spaces, [Encode] returns no error, and [Decode] of the codes
    it returns gives the text back, with no error. *)
Theorem Decode_Encode_roundtrip (CaseRanges : list CaseRange) (text : gostring) :
  plain_text text = true ->
  (Encode CaseRanges text).2 = None /\
  Decode (Encode CaseRanges text).1 = (text, None).
Proof.
  intros Hplain. apply plain_text_supported in Hplain.
  rewrite (Encode_supported _ _ Hplain). cbn [fst snd].
  split; [reflexivity|]. now apply Decode_codes.
Qed.

Lemma Decode_Encode_roundtrip_witness :
  plain_text (lit "cq de k1abc 73") = true /\
  (Encode CaseRanges_Latin1 (lit "cq de k1abc 73")).2 = None /\
  Decode (Encode CaseRanges_Latin1 (lit "cq de k1abc 73")).1
    = (lit "cq de k1abc 73", None).
Proof.
  split; [reflexivity|].
  apply (Decode_Encode_roundtrip CaseRanges_Latin1 (lit "cq de k1abc 73")).
  reflexivity.
Defined.

(** C2. [Escape] does not always make a text encodable.  Of "a<tab>b", with
    the supported character a, it keeps the tab (only a run of two or more
    white-space characters is replaced), which has no code; it keeps the
    capital I, which the Turkish lower-casing turns into the dotless
    U+0131, which has no code either.  And of a text without a letter or
    digit it can leave a tab, which is not a space. *)
Theorem Escape_keeps_unencodable (CaseRanges : list CaseRange) :
  supported 0x61 = true /\
  Escape [0x61; 0x09; 0x62] = [0x61; 0x09; 0x62] /\
  Encodable CaseRanges (Escape [0x61; 0x09; 0x62]) =
    (false, Some (lit "no matching character in the codes map: '"
                  ++ [0x09] ++ lit "'")) /\
  Escape (lit "Hi I") = lit "Hi I" /\
  Encodable CaseRanges (Escape (lit "Hi I")) =
    (false, Some (lit "no matching character in the codes map: '"
                  ++ [0x131] ++ lit "'")) /\
  Escape [0x09] = [0x09].
Proof. repeat split; vm_compute; reflexivity. Qed.

(** C3, the claim as stated is false: on the ASCII text "I" the Turkish
    lower-casing makes [Encodable] and [Encode] fail, for every case
    table, and the ASCII lower-casing makes them succeed.  On U+0130, the
    capital I with a dot, it is the other way round. *)
Lemma folding_differs_on_I :
  forallb is_ascii (lit "I") = true /\
  (forall CaseRanges : list CaseRange,
     Encodable CaseRanges (lit "I") =
       (false, Some (lit "no matching character in the codes map: '"
                     ++ [0x131] ++ lit "'")) /\
     Encode CaseRanges (lit "I") =
       ([], Some (lit "'I' is not encodable: "
                  ++ lit "no matching character in the codes map: '"
                  ++ [0x131] ++ lit "'"))) /\
  Encodable_ascii (lit "I") = (true, None) /\
  Encode_ascii (lit "I") = ([Codes.I], None) /\
  (forall CaseRanges : list CaseRange,
     Encodable CaseRanges [0x130] = (true, None) /\
     Encode CaseRanges [0x130] = ([Codes.I], None)) /\
  Encodable_ascii [0x130] =
    (false, Some (lit "no matching character in the codes map: '"
                  ++ [0x130] ++ lit "'")).
Proof. repeat split; vm_compute; reflexivity. Qed.

(** C3, amended. For every text of ASCII characters without the capital I,
    [Encodable] and [Encode] return the same with the Turkish lower-casing
    and with the ASCII lower-casing. *)
Theorem folding_agrees_without_I (CaseRanges : list CaseRange) (text : gostring) :
  forallb (fun r => is_ascii r && negb (r =? 0x49)) text = true ->
  Encodable CaseRanges text = Encodable_ascii text /\
  Encode CaseRanges text = Encode_ascii text.
Proof.
  intros Hall.
  assert (strings_ToLowerSpecial CaseRanges TurkishCase text
          = strings_Map asciiLower text) as Hlower.
  { apply strings_Map_ext, Forall_forall. intros r Hr.
    rewrite forallb_forall in Hall. apply list_elem_of_In, Hall in Hr.
    apply andb_true_iff in Hr as [Hascii HI].
    apply Turkish_asciiLower; [assumption|].
    apply negb_true_iff, Z.eqb_neq in HI. exact HI. }
  unfold Encodable, Encodable_ascii, Encode, Encode_ascii.
  unfold Encode_with, Encodable_with. now rewrite Hlower.
Qed.

Lemma folding_agrees_without_I_witness :
  forallb (fun r => is_ascii r && negb (r =? 0x49)) (lit "Hello, World!") = true /\
  Encodable CaseRanges_Latin1 (lit "Hello, World!")
    = Encodable_ascii (lit "Hello, World!") /\
  Encode CaseRanges_Latin1 (lit "Hello, World!")
    = Encode_ascii (lit "Hello, World!").
Proof.
  split; [reflexivity|].
  apply (folding_agrees_without_I CaseRanges_Latin1 (lit "Hello, World!")).
  reflexivity.
Defined.

(** C4. Bijection: looking up the code of a supported character and then the
    character of that code gives the character back; two supported
    characters with the same code are the same; the supported characters
    are the keys of [codesMap]; [charsMap] is the inverse of [codesMap],
    in whatever order [init] goes through the entries. *)
Theorem Alphabet_bijection :
  (forall c, supported c = true -> codeToChar (charToCode c).1 = (c, None)) /\
  (forall c1 c2, supported c1 = true -> supported c2 = true ->
     (charToCode c1).1 = (charToCode c2).1 -> c1 = c2) /\
  (forall c, supported c = true <-> is_Some (codesMap !! c)) /\
  (forall c code, codesMap !! c = Some code <-> charsMap !! code = Some c) /\
  (forall entries, entries ≡ₚ map_to_list codesMap ->
     fill_charsMap entries = charsMap).
Proof.
  split; [exact codeToChar_charToCode|].
  split; [|split; [exact supported_lookup|split]].
  - intros c1 c2 H1 H2 Heq.
    pose proof (codeToChar_charToCode c1 H1) as E1.
    pose proof (codeToChar_charToCode c2 H2) as E2.
    rewrite Heq in E1. congruence.
  - intros c code. symmetry. apply charsMap_lookup.
  - exact charsMap_any_order.
Qed.

Lemma Alphabet_bijection_witness :
  supported (ch "k") = true /\
  codeToChar (charToCode (ch "k")).1 = (ch "k", None).
Proof.
  split; [reflexivity|].
  apply (proj1 Alphabet_bijection (ch "k")). reflexivity.
Defined.

(** C5. When the check fails, [Encode] returns an empty slice of codes and an
    error made of the text and of the error of [charToCode] for a
    character without code, which is the error of [Encodable]; and
    [Decode] returns the empty string and an error made of the codes and
    of the error of [codeToChar] for a code without character, which is
    the error of [Decodable]. *)
Theorem failed_check_error (CaseRanges : list CaseRange) :
  (forall text, (Encodable CaseRanges text).1 = false ->
     exists chr,
       chr ∈ strings_ToLowerSpecial CaseRanges TurkishCase text /\
       codesMap !! chr = None /\
       Encodable CaseRanges text = (false, (charToCode chr).2) /\
       Encode CaseRanges text =
         ([], Some (lit "'" ++ text ++ lit "' is not encodable: "
                    ++ lit "no matching character in the codes map: '"
                    ++ fmt_c chr ++ lit "'"))) /\
  (forall codes, (Decodable codes).1 = false ->
     exists code,
       code ∈ codes /\
       charsMap !! code = None /\
       Decodable codes = (false, (codeToChar code).2) /\
       Decode codes =
         ([], Some (lit "'" ++ fmt_v codes ++ lit "' are not decodable: "
                    ++ lit "no matching code in the chars map: '"
                    ++ code ++ lit "'"))).
Proof.
  split.
  - intros text Hfail. unfold Encode, Encode_with, Encodable, Encodable_with in *.
    destruct (Encodable_loop_cases (strings_ToLowerSpecial CaseRanges TurkishCase text))
      as [[_ Hok]|(pre & chr & post & Htext & _ & Hchr & Hres)].
    + rewrite Hok in Hfail. discriminate.
    + exists chr. rewrite Hres. rewrite (charToCode_missing _ Hchr). cbn [snd].
      repeat split; try assumption; try reflexivity.
      rewrite Htext. apply elem_of_app. right. left.
  - intros codes Hfail. unfold Decode.
    destruct (Decodable_cases codes)
      as [[_ Hok]|(pre & code & post & Hcodes & _ & Hcode & Hres)].
    + rewrite Hok in Hfail. discriminate.
    + exists code. rewrite Hres. rewrite (codeToChar_missing _ Hcode). cbn [snd].
      repeat split; try assumption; try reflexivity.
      rewrite Hcodes. apply elem_of_app. right. left.
Qed.

Lemma failed_check_error_witness :
  ((Encodable CaseRanges_Latin1 (lit "Hello!")).1 = false /\
   exists chr,
     chr ∈ strings_ToLowerSpecial CaseRanges_Latin1 TurkishCase (lit "Hello!") /\
     codesMap !! chr = None /\
     Encodable CaseRanges_Latin1 (lit "Hello!") = (false, (charToCode chr).2) /\
     Encode CaseRanges_Latin1 (lit "Hello!") =
       ([], Some (lit "'" ++ lit "Hello!" ++ lit "' is not encodable: "
                  ++ lit "no matching character in the codes map: '"
                  ++ fmt_c chr ++ lit "'"))) /\
  ((Decodable [Codes.S; Dit ++ Dit ++ Dit ++ Dit ++ Dit ++ Dit]).1 = false /\
   exists code,
     code ∈ [Codes.S; Dit ++ Dit ++ Dit ++ Dit ++ Dit ++ Dit] /\
     charsMap !! code = None /\
     Decodable [Codes.S; Dit ++ Dit ++ Dit ++ Dit ++ Dit ++ Dit]
       = (false, (codeToChar code).2) /\
     Decode [Codes.S; Dit ++ Dit ++ Dit ++ Dit ++ Dit ++ Dit] =
       ([], Some (lit "'"
                  ++ fmt_v [Codes.S; Dit ++ Dit ++ Dit ++ Dit ++ Dit ++ Dit]
                  ++ lit "' are not decodable: "
                  ++ lit "no matching code in the chars map: '"
                  ++ code ++ lit "'"))).
Proof.
  split; (split; [reflexivity|]).
  - apply (proj1 (failed_check_error CaseRanges_Latin1) (lit "Hello!")).
    reflexivity.
  - apply (proj2 (failed_check_error CaseRanges_Latin1)
             [Codes.S; Dit ++ Dit ++ Dit ++ Dit ++ Dit ++ Dit]).
    reflexivity.
Defined.

(** C6. [Encodable] lower-cases the text and looks up every character: either
    all of them have a code and it returns true and no error, or it
    returns false and the error of [charToCode] for the first character
    without code.  It returns false and such an error for "é" (U+00E9,
    which the case table leaves as it is) and for "Hello!". *)
Theorem Encodable_first_failure (CaseRanges : list CaseRange) :
  (forall text,
     let chrs := strings_ToLowerSpecial CaseRanges TurkishCase text in
     (Forall (fun c => is_Some (codesMap !! c)) chrs /\
      Encodable CaseRanges text = (true, None))
     \/ exists pre chr post,
          chrs = pre ++ chr :: post /\
          Forall (fun c => is_Some (codesMap !! c)) pre /\
          codesMap !! chr = None /\
          Encodable CaseRanges text =
            (false, Some (lit "no matching character in the codes map: '"
                          ++ fmt_c chr ++ lit "'"))) /\
  (unicode_ToLower CaseRanges 0xE9 = 0xE9 ->
   Encodable CaseRanges [0xE9] =
     (false, Some (lit "no matching character in the codes map: '"
                   ++ [0xE9] ++ lit "'"))) /\
  Encodable CaseRanges (lit "Hello!") =
    (false, Some (lit "no matching character in the codes map: '!'")).
Proof.
  split; [|split].
  - intros text chrs. unfold Encodable, Encodable_with. fold chrs.
    destruct (Encodable_loop_cases chrs)
      as [Hok|(pre & chr & post & Htext & Hpre & Hchr & Hres)]; [now left|].
    right. exists pre, chr, post.
    rewrite (charToCode_missing _ Hchr) in Hres. auto.
  - intros Hlower. unfold Encodable, Encodable_with.
    assert (strings_ToLowerSpecial CaseRanges TurkishCase [0xE9] = [0xE9]) as ->.
    { unfold strings_ToLowerSpecial, strings_Map. cbn [flat_map app].
      change (SpecialCase_ToLower CaseRanges TurkishCase 0xE9)
        with (unicode_ToLower CaseRanges 0xE9).
      rewrite Hlower. reflexivity. }
    vm_compute. reflexivity.
  - vm_compute. reflexivity.
Qed.

Lemma Encodable_first_failure_witness :
  unicode_ToLower CaseRanges_Latin1 0xE9 = 0xE9 /\
  Encodable CaseRanges_Latin1 [0xE9] =
    (false, Some (lit "no matching character in the codes map: '"
                  ++ [0xE9] ++ lit "'")).
Proof.
  split; [reflexivity|].
  apply (proj1 (proj2 (Encodable_first_failure CaseRanges_Latin1))).
  reflexivity.
Defined.

(** C7. [Escape] is idempotent. *)
Theorem Escape_idempotent (s : gostring) : Escape (Escape s) = Escape s.
Proof.
  apply Escape_fixed; [apply Escape_alnum_space|apply Escape_no_adjacent].
Qed.

(** C8. [Encode] of "sos" returns the codes of s, o and s and no error, the
    code of s being three short durations and the code of o three long
    ones; [Decode] of these codes with [Space] between them returns
    "s o s" and no error. *)
Theorem sos (CaseRanges : list CaseRange) :
  Encode CaseRanges (lit "sos") = ([Codes.S; Codes.O; Codes.S], None) /\
  Codes.S = Dit ++ Dit ++ Dit /\
  Codes.O = Dah ++ Dah ++ Dah /\
  Decode [Dit ++ Dit ++ Dit; Codes.Space; Dah ++ Dah ++ Dah; Codes.Space;
          Dit ++ Dit ++ Dit]
    = (lit "s o s", None).
Proof. repeat split; vm_compute; reflexivity. Qed.

(** C9. [CodeFromDurations] concatenates the durations, with nothing
    between them, and looks nothing up: three short durations give the
    three glyphs of [Codes.S]; any sequence of short and long durations
    gives a code of as many glyphs, the empty sequence the empty code;
    the code need not be one of [charsMap]. *)
Theorem CodeFromDurations_concat :
  (forall durations, CodeFromDurations durations = concat durations) /\
  CodeFromDurations [Dit; Dit; Dit] = [0x2022; 0x2022; 0x2022] /\
  CodeFromDurations [Dit; Dit; Dit] = Codes.S /\
  CodeFromDurations [] = Codes.None /\
  (forall durations, Forall (fun d => d = Dit \/ d = Dah) durations ->
     unit_sequence (CodeFromDurations durations) = true /\
     length (CodeFromDurations durations) = length durations) /\
  charsMap !! CodeFromDurations [] = None /\
  charsMap !! CodeFromDurations [Dit; Dit; Dit; Dit; Dit; Dit] = None.
Proof.
  assert (forall durations, CodeFromDurations durations = concat durations) as Hcat.
  { intros durations. unfold CodeFromDurations.
    rewrite CodeFromDurations_collect, app_nil_l. apply strings_Join_empty. }
  split; [exact Hcat|]. repeat split; try (vm_compute; reflexivity).
  - rewrite Hcat. induction H as [|d durations [->| ->] _ IH]; cbn; auto.
  - rewrite Hcat. induction H as [|d durations [->| ->] _ IH]; cbn; auto.
Qed.

Lemma CodeFromDurations_concat_witness :
  Forall (fun d => d = Dit \/ d = Dah) [Dah; Dit; Dah] /\
  unit_sequence (CodeFromDurations [Dah; Dit; Dah]) = true /\
  length (CodeFromDurations [Dah; Dit; Dah]) = length [Dah; Dit; Dah].
Proof.
  assert (Forall (fun d => d = Dit \/ d = Dah) [Dah; Dit; Dah]) as Hunits
    by (repeat constructor; auto).
  split; [exact Hunits|].
  exact (proj1 (proj2 (proj2 (proj2 (proj2 CodeFromDurations_concat)))) _ Hunits).
Defined.

(** C10. On the empty input [Encodable], [Encode], [Decodable] and [Decode]
    succeed. *)
Theorem empty_input (CaseRanges : list CaseRange) :
  Encodable CaseRanges [] = (true, None) /\
  Encode CaseRanges [] = ([], None) /\
  Decodable [] = (true, None) /\
  Decode [] = ([], None).
Proof. repeat split. Qed.

(** ** Further properties of the transcoder *)

Lemma Encodable_loop_None (chrs : gostring) :
  (Encodable_loop chrs).2 = None <-> Forall (fun c => supported c = true) chrs.
Proof.
  destruct (Encodable_loop_cases chrs)
    as [[Hall ->]|(pre & chr & post & -> & _ & Hchr & ->)].
  - split; [intros _|reflexivity].
    eapply Forall_impl; [exact Hall|]. intros c. apply supported_lookup.
  - rewrite (charToCode_missing _ Hchr). split; [discriminate|].
    intros Hall. apply Forall_app in Hall as [_ Hall].
    apply Forall_cons in Hall as [Hsup _].
    apply supported_lookup in Hsup as [code Hcode]. congruence.
Qed.

Lemma Encodable_loop_true (chrs : gostring) :
  (Encodable_loop chrs).1 = true <-> (Encodable_loop chrs).2 = None.
Proof.
  destruct (Encodable_loop_cases chrs)
    as [[_ ->]|(pre & chr & post & _ & _ & Hchr & ->)]; [easy|].
  rewrite (charToCode_missing _ Hchr). easy.
Qed.

Lemma Decodable_None (codes : list Code) :
  (Decodable codes).2 = None <->
  Forall (fun code => is_Some (charsMap !! code)) codes.
Proof.
  destruct (Decodable_cases codes)
    as [[Hall ->]|(pre & code & post & -> & _ & Hcode & ->)]; [easy|].
  rewrite (codeToChar_missing _ Hcode). split; [discriminate|].
  intros Hall. apply Forall_app in Hall as [_ Hall].
  apply Forall_cons in Hall as [[c Hc] _]. congruence.
Qed.

Lemma Decodable_true (codes : list Code) :
  (Decodable codes).1 = true <-> (Decodable codes).2 = None.
Proof.
  destruct (Decodable_cases codes)
    as [[_ ->]|(pre & code & post & _ & _ & Hcode & ->)]; [easy|].
  rewrite (codeToChar_missing _ Hcode). easy.
Qed.

Lemma Encode_error (ToLower : gostring -> gostring) (text : gostring) :
  (Encode_with ToLower text).2 = None <-> (Encodable_with ToLower text).2 = None.
Proof.
  unfold Encode_with. destruct (Encodable_with ToLower text).2; easy.
Qed.

Lemma Decode_error (codes : list Code) :
  (Decode codes).2 = None <-> (Decodable codes).2 = None.
Proof. unfold Decode. destruct (Decodable codes).2; easy. Qed.

(** What [Encode_with] returns when the check succeeds. *)
Lemma Encode_with_ok (ToLower : gostring -> gostring) (text : gostring) :
  (Encode_with ToLower text).2 = None ->
  Forall (fun c => supported c = true) (ToLower text) /\
  Encode_with ToLower text =
    (map (fun c => (charToCode c).1) (ToLower text), None).
Proof.
  intros Hok. apply Encode_error in Hok. unfold Encodable_with in Hok.
  pose proof (proj1 (Encodable_loop_None _) Hok) as Hall. split; [exact Hall|].
  unfold Encode_with, Encodable_with. rewrite Hok.
  rewrite Encode_loop_all; [reflexivity|].
  eapply Forall_impl; [exact Hall|]. intros c. apply supported_lookup.
Qed.

(** The characters that the loop of [Decode] collects. *)
Lemma Decode_loop_all (chars : list rune) (codes : list Code) :
  Forall (fun code => is_Some (charsMap !! code)) codes ->
  exists chrs,
    Forall2 (fun chr code => codesMap !! chr = Some code) chrs codes /\
    Decode_loop chars codes = chars ++ chrs.
Proof.
  intros Hall. revert chars.
  induction Hall as [|code codes [chr Hchr] _ IH]; intros chars.
  - exists []. split; [constructor|]. cbn. now rewrite app_nil_r.
  - destruct (IH (chars ++ [chr])) as (chrs & Hchrs & Hloop).
    exists (chr :: chrs). split.
    + constructor; [now apply charsMap_lookup|assumption].
    + cbn. rewrite (codeToChar_found _ _ Hchr), Hloop. now rewrite <- app_assoc.
Qed.

Lemma Forall2_codes_supported (chrs : gostring) (codes : list Code) :
  Forall2 (fun chr code => codesMap !! chr = Some code) chrs codes ->
  Forall (fun c => supported c = true) chrs /\
  map (fun c => (charToCode c).1) chrs = codes.
Proof.
  induction 1 as [|chr code chrs codes Hchr _ [IH1 IH2]]; [split; [constructor|reflexivity]|].
  split.
  - constructor; [|assumption]. apply supported_lookup. eauto.
  - cbn. now rewrite (charToCode_found _ _ Hchr), IH2.
Qed.

(** What [Decode] returns when the check succeeds. *)
Lemma Decode_ok (codes : list Code) :
  (Decode codes).2 = None ->
  exists chrs,
    Forall2 (fun chr code => codesMap !! chr = Some code) chrs codes /\
    Decode codes = (chrs, None).
Proof.
  intros Hok. apply Decode_error in Hok.
  pose proof (proj1 (Decodable_None _) Hok) as Hall.
  destruct (Decode_loop_all [] codes Hall) as (chrs & Hchrs & Hloop).
  exists chrs. split; [exact Hchrs|].
  unfold Decode. rewrite Hok, Hloop, app_nil_l.
  destruct (Forall2_codes_supported _ _ Hchrs) as [Hsup _].
  now rewrite (string_of_runes_supported _ Hsup).
Qed.

(** X4. Round trip, in general: whenever [Encode] returns no error, [Decode]
    of the codes it returns gives the lower-cased text, with no error. *)
Theorem Decode_Encode_lower (CaseRanges : list CaseRange) (text : gostring) :
  (Encode CaseRanges text).2 = None ->
  Decode (Encode CaseRanges text).1
    = (strings_ToLowerSpecial CaseRanges TurkishCase text, None).
Proof.
  intros Hok. apply Encode_with_ok in Hok as [Hall Hcodes].
  unfold Encode. rewrite Hcodes. cbn [fst]. now apply Decode_codes.
Qed.

Lemma Decode_Encode_lower_witness :
  (Encode CaseRanges_Latin1 (lit "Morse Code 73")).2 = None /\
  Decode (Encode CaseRanges_Latin1 (lit "Morse Code 73")).1
    = (strings_ToLowerSpecial CaseRanges_Latin1 TurkishCase (lit "Morse Code 73"),
       None).
Proof.
  split; [reflexivity|].
  apply (Decode_Encode_lower CaseRanges_Latin1 (lit "Morse Code 73")).
  reflexivity.
Defined.

(** X5. Round trip, the other way: whenever [Decode] returns no error,
    [Encode] of the text it returns gives the codes back, with no error. *)
Theorem Encode_Decode_roundtrip (CaseRanges : list CaseRange) (codes : list Code) :
  (Decode codes).2 = None ->
  Encode CaseRanges (Decode codes).1 = (codes, None).
Proof.
  intros Hok. destruct (Decode_ok codes Hok) as (chrs & Hchrs & ->). cbn [fst].
  destruct (Forall2_codes_supported _ _ Hchrs) as [Hsup Hmap].
  now rewrite (Encode_supported _ _ Hsup), Hmap.
Qed.

Lemma Encode_Decode_roundtrip_witness :
  (Decode [Codes.C; Codes.Q; Codes.Space; Codes.Seven; Codes.Three]).2 = None /\
  Encode CaseRanges_Latin1
         (Decode [Codes.C; Codes.Q; Codes.Space; Codes.Seven; Codes.Three]).1
    = ([Codes.C; Codes.Q; Codes.Space; Codes.Seven; Codes.Three], None).
Proof.
  split; [reflexivity|].
  apply (Encode_Decode_roundtrip CaseRanges_Latin1
           [Codes.C; Codes.Q; Codes.Space; Codes.Seven; Codes.Three]).
  reflexivity.
Defined.

(** X6. Neither conversion skips anything: when [Encode] returns no error
    there is one code for every character of the lower-cased text, in
    order, each the code of its character in [codesMap]; when [Decode]
    returns no error there is one character for every code, each the
    character of its code in [charsMap]. *)
Theorem conversion_never_skips (CaseRanges : list CaseRange) :
  (forall text, (Encode CaseRanges text).2 = None ->
     Forall2 (fun chr code => codesMap !! chr = Some code)
             (strings_ToLowerSpecial CaseRanges TurkishCase text)
             (Encode CaseRanges text).1) /\
  (forall codes, (Decode codes).2 = None ->
     Forall2 (fun code chr => charsMap !! code = Some chr)
             codes (Decode codes).1).
Proof.
  split.
  - intros text Hok. apply Encode_with_ok in Hok as [Hall Hcodes].
    unfold Encode. rewrite Hcodes. cbn [fst]. clear Hcodes.
    induction Hall as [|c chrs Hc _ IH]; cbn [map]; constructor; [|exact IH].
    apply supported_lookup in Hc as [code Hcode].
    now rewrite (charToCode_found _ _ Hcode).
  - intros codes Hok. destruct (Decode_ok codes Hok) as (chrs & Hchrs & ->).
    cbn [fst]. apply Forall2_flip. eapply Forall2_impl; [exact Hchrs|].
    intros chr code. apply charsMap_lookup.
Qed.

Lemma conversion_never_skips_witness :
  (Encode CaseRanges_Latin1 (lit "Sos")).2 = None /\
  Forall2 (fun chr code => codesMap !! chr = Some code)
          (strings_ToLowerSpecial CaseRanges_Latin1 TurkishCase (lit "Sos"))
          (Encode CaseRanges_Latin1 (lit "Sos")).1.
Proof.
  split; [reflexivity|].
  apply (proj1 (conversion_never_skips CaseRanges_Latin1) (lit "Sos")).
  reflexivity.
Defined.

(** X7. The boolean and the error agree, and the conversions fail exactly
    when the checks do: [Encodable] returns true exactly when it returns no
    error, and exactly then [Encode] returns no error; likewise for
    [Decodable] and [Decode]. *)
Theorem check_and_conversion_agree (CaseRanges : list CaseRange) :
  (forall text,
     ((Encodable CaseRanges text).1 = true <-> (Encodable CaseRanges text).2 = None) /\
     ((Encode CaseRanges text).2 = None <-> (Encodable CaseRanges text).1 = true)) /\
  (forall codes,
     ((Decodable codes).1 = true <-> (Decodable codes).2 = None) /\
     ((Decode codes).2 = None <-> (Decodable codes).1 = true)).
Proof.
  split.
  - intros text. unfold Encode, Encodable. rewrite Encode_error.
    unfold Encodable_with. pose proof (Encodable_loop_true
      (strings_ToLowerSpecial CaseRanges TurkishCase text)). tauto.
  - intros codes. rewrite Decode_error. pose proof (Decodable_true codes). tauto.
Qed.

(** ** Concatenation *)

Lemma strings_Map_app (mapping : rune -> rune) (a b : gostring) :
  strings_Map mapping (a ++ b) = strings_Map mapping a ++ strings_Map mapping b.
Proof. unfold strings_Map. apply flat_map_app. Qed.

Lemma Encodable_loop_app (a b : gostring) :
  (Encodable_loop (a ++ b)).1 = (Encodable_loop a).1 && (Encodable_loop b).1.
Proof.
  induction a as [|c a IH]; [reflexivity|].
  cbn. destruct (charToCode c).2; [reflexivity|exact IH].
Qed.






(** ** The lower-casing of [Encode] and [Encodable] *)

(** The binary search finds nothing in a table without a range for [r]. *)
Lemma to_loop_miss (fuel _case : nat) (r : rune) (caseRange : list CaseRange)
      (lo hi : Z) :
  Forall (fun cr => (Lo cr <=? r) && (r <=? Hi cr) = false) caseRange ->
  to_loop fuel _case r caseRange lo hi = (r, false).
Proof.
  intros Hmiss. revert lo hi. induction fuel as [|fuel IH]; intros lo hi; cbn.
  - reflexivity.
  - destruct (lo <? hi); [|reflexivity].
    destruct (caseRange !! Z.to_nat (Z.shiftr (lo + hi) 1)) as [cr|] eqn:Hcr;
      [|reflexivity].
    rewrite Forall_forall in Hmiss.
    rewrite (Hmiss cr) by (eapply list_elem_of_lookup_2; exact Hcr).
    destruct (r <? Lo cr); apply IH.
Qed.

Lemma TurkishCase_miss (r : rune) :
  r <> 0x49 -> r <> 0x69 -> r <> 0x130 -> r <> 0x131 ->
  to LowerCase r TurkishCase = (r, false).
Proof.
  intros H1 H2 H3 H4. unfold to.
  change (MaxCase <=? LowerCase)%nat with false. cbv iota.
  apply to_loop_miss. unfold TurkishCase.
  repeat constructor; cbn [Lo Hi]; apply andb_false_iff;
    rewrite !Z.leb_gt; lia.
Qed.

(** X9. The lower-casing that [Encode] and [Encodable] apply to a rune: the
    capital I becomes the dotless U+0131, U+0130 becomes i, U+0131 stays,
    and every other rune is lower-cased as [unicode.ToLower] does. *)
Theorem TurkishCase_ToLower (CaseRanges : list CaseRange) (r : rune) :
  SpecialCase_ToLower CaseRanges TurkishCase r =
    if r =? 0x49 then 0x131
    else if r =? 0x130 then 0x69
    else if r =? 0x131 then 0x131
    else unicode_ToLower CaseRanges r.
Proof.
  destruct (Z.eqb_spec r 0x49) as [->|H1]; [reflexivity|].
  destruct (Z.eqb_spec r 0x130) as [->|H3]; [reflexivity|].
  destruct (Z.eqb_spec r 0x131) as [->|H4]; [reflexivity|].
  destruct (Z.eq_dec r 0x69) as [->|H2]; [reflexivity|].
  unfold SpecialCase_ToLower. rewrite (TurkishCase_miss r H1 H2 H3 H4).
  now rewrite Z.eqb_refl.
Qed.

Lemma Encode_with_ext (f g : gostring -> gostring) (text : gostring) :
  f text = g text ->
  Encodable_with f text = Encodable_with g text /\
  Encode_with f text = Encode_with g text.
Proof. unfold Encode_with, Encodable_with. now intros ->. Qed.

(** X10. [Encode] and [Encodable] return what they would with
    [strings.ToLower] in place of the Turkish lower-casing, on every text
    without the capital I (U+0049), the capital I with a dot (U+0130) and
    the dotless i (U+0131). *)
Theorem Encode_as_with_ToLower (CaseRanges : list CaseRange) (text : gostring) :
  Forall (fun r => r <> 0x49 /\ r <> 0x130 /\ r <> 0x131) text ->
  Encodable CaseRanges text = Encodable_with (strings_ToLower CaseRanges) text /\
  Encode CaseRanges text = Encode_with (strings_ToLower CaseRanges) text.
Proof.
  intros Hall. apply Encode_with_ext.
  apply strings_Map_ext. eapply Forall_impl; [exact Hall|].
  intros r (H1 & H3 & H4). cbn beta.
  destruct (Z.eq_dec r 0x69) as [->|H2]; [reflexivity|].
  unfold SpecialCase_ToLower. rewrite (TurkishCase_miss r H1 H2 H3 H4).
  now rewrite Z.eqb_refl.
Qed.

Lemma Encode_as_with_ToLower_witness :
  Forall (fun r => r <> 0x49 /\ r <> 0x130 /\ r <> 0x131)
         (lit "Hello " ++ [0xC9; 0x212A]) /\
  Encodable CaseRanges_Latin1 (lit "Hello " ++ [0xC9; 0x212A])
    = Encodable_with (strings_ToLower CaseRanges_Latin1)
                     (lit "Hello " ++ [0xC9; 0x212A]) /\
  Encode CaseRanges_Latin1 (lit "Hello " ++ [0xC9; 0x212A])
    = Encode_with (strings_ToLower CaseRanges_Latin1)
                  (lit "Hello " ++ [0xC9; 0x212A]).
Proof.
  assert (Forall (fun r => r <> 0x49 /\ r <> 0x130 /\ r <> 0x131)
                 (lit "Hello " ++ [0xC9; 0x212A])) as Hall by by_evaluation.
  split; [exact Hall|]. exact (Encode_as_with_ToLower CaseRanges_Latin1 _ Hall).
Defined.

Lemma Encodable_loop_single (c : rune) :
  (Encodable_loop [c]).1 = supported c.
Proof.
  cbn. destruct (supported c) eqn:Hc.
  - apply supported_lookup in Hc as [code Hcode].
    now rewrite (charToCode_found _ _ Hcode).
  - apply unsupported_lookup in Hc. now rewrite (charToCode_missing _ Hc).
Qed.

(** [Encodable_with] for a lower-casing rune by rune: a rune is accepted when
    it is dropped or becomes a supported character. *)
Lemma Encodable_with_Map (mapping : rune -> rune) (text : gostring) :
  (Encodable_with (strings_Map mapping) text).1 =
    forallb (fun r => (mapping r <? 0) || supported (utf8 (mapping r))) text.
Proof.
  unfold Encodable_with. induction text as [|r text IH]; [reflexivity|].
  change (r :: text) with ([r] ++ text).
  rewrite strings_Map_app, Encodable_loop_app, IH. cbn [forallb app].
  f_equal. unfold strings_Map. cbn [flat_map]. rewrite app_nil_r.
  rewrite Z.leb_antisym. destruct (mapping r <? 0); cbn [negb orb].
  - reflexivity.
  - apply Encodable_loop_single.
Qed.

Lemma forallb_ext_Forall (f g : rune -> bool) (s : gostring) :
  Forall (fun r => f r = g r) s -> forallb f s = forallb g s.
Proof. induction 1 as [|r s Hr _ IH]; cbn; [reflexivity|]. now rewrite Hr, IH. Qed.

Lemma forallb_Forall (f : rune -> bool) (s : gostring) :
  forallb f s = true <-> Forall (fun r => f r = true) s.
Proof.
  induction s as [|r s IH]; cbn.
  - split; [constructor|reflexivity].
  - rewrite andb_true_iff, IH, Forall_cons. reflexivity.
Qed.

Lemma Turkish_encodable_ascii (CaseRanges : list CaseRange) (r : rune) :
  is_ascii r = true ->
  (SpecialCase_ToLower CaseRanges TurkishCase r <? 0)
    || supported (utf8 (SpecialCase_ToLower CaseRanges TurkishCase r))
  = encodable_ascii r.
Proof. revert r. apply ascii_cases. by_evaluation. Qed.

(** X11. Which ASCII texts are encodable: [Encodable] returns true for a text
    of ASCII characters exactly when every character is a letter other
    than the capital I, a digit or the space. *)
Theorem Encodable_ascii_text (CaseRanges : list CaseRange) (text : gostring) :
  forallb is_ascii text = true ->
  (Encodable CaseRanges text).1 = forallb encodable_ascii text.
Proof.
  intros Hascii. unfold Encodable, strings_ToLowerSpecial.
  rewrite Encodable_with_Map. apply forallb_ext_Forall.
  apply forallb_Forall in Hascii. eapply Forall_impl; [exact Hascii|].
  intros r. apply Turkish_encodable_ascii.
Qed.

Lemma Encodable_ascii_text_witness :
  forallb is_ascii (lit "Morse, 1837") = true /\
  (Encodable CaseRanges_Latin1 (lit "Morse, 1837")).1
    = forallb encodable_ascii (lit "Morse, 1837").
Proof.
  split; [reflexivity|].
  apply (Encodable_ascii_text CaseRanges_Latin1 (lit "Morse, 1837")).
  reflexivity.
Defined.

Lemma encodable_ascii_lower (CaseRanges : list CaseRange) (r : rune) :
  encodable_ascii r = true ->
  SpecialCase_ToLower CaseRanges TurkishCase r = asciiLower r /\
  supported (asciiLower r) = true.
Proof.
  intros Hr. assert (is_ascii r = true) as Hascii.
  { unfold encodable_ascii, is_ascii, in_range, MaxASCII in *.
    apply andb_true_iff. rewrite !Z.leb_le.
    repeat (apply orb_true_iff in Hr as [Hr|Hr]);
      repeat (apply andb_true_iff in Hr as [Hr ?]);
      rewrite ?Z.leb_le, ?Z.eqb_eq in *; lia. }
  revert Hr. revert r Hascii.
  apply (ascii_cases (fun r => encodable_ascii r = true ->
    SpecialCase_ToLower CaseRanges TurkishCase r = asciiLower r /\
    supported (asciiLower r) = true)).
  by_evaluation.
Qed.

(** Encoding and decoding a text of letters other than the capital I,
    digits and spaces. *)
Lemma Decode_Encode_fold (CaseRanges : list CaseRange) (text : gostring) :
  Forall (fun r => encodable_ascii r = true) text ->
  (Encode CaseRanges text).2 = None /\
  Decode (Encode CaseRanges text).1 = (strings_Map asciiLower text, None).
Proof.
  intros Hall.
  assert (strings_ToLowerSpecial CaseRanges TurkishCase text
          = strings_Map asciiLower text) as Hlower.
  { apply strings_Map_ext. eapply Forall_impl; [exact Hall|].
    intros r Hr. now apply encodable_ascii_lower. }
  assert (Forall (fun c => supported c = true) (strings_Map asciiLower text)) as Hsup.
  { apply strings_Map_Forall. eapply Forall_impl; [exact Hall|].
    intros r Hr. cbn beta.
    destruct (encodable_ascii_lower CaseRanges r Hr) as [_ Hs].
    pose proof (supported_utf8 _ Hs) as Hu. rewrite Hu. split; [|exact Hs].
    unfold utf8, ValidRune, RuneError in Hu.
    destruct (Z.leb_spec 0 (asciiLower r)); [assumption|].
    destruct (Z.ltb_spec 0xDFFF (asciiLower r)); [lia|]. cbn in Hu. lia. }
  assert ((Encode CaseRanges text).2 = None) as Hok.
  { unfold Encode. apply Encode_error. unfold Encodable_with.
    apply Encodable_loop_None. now rewrite Hlower. }
  split; [exact Hok|].
  apply Encode_with_ok in Hok as [_ Hcodes]. unfold Encode.
  rewrite Hcodes, Hlower. cbn [fst]. now apply Decode_codes.
Qed.

(** X12. The round trip folds the case: for a text of Latin letters of either
    case other than the capital I, digits and spaces, [Encode] returns no
    error and [Decode] of its codes returns the text in lower case. *)
Theorem Decode_Encode_folds_case (CaseRanges : list CaseRange) (text : gostring) :
  forallb encodable_ascii text = true ->
  (Encode CaseRanges text).2 = None /\
  Decode (Encode CaseRanges text).1 = (strings_Map asciiLower text, None).
Proof. intros Hall. apply Decode_Encode_fold. now apply forallb_Forall. Qed.

Lemma Decode_Encode_folds_case_witness :
  forallb encodable_ascii (lit "What hath God wrought 1844") = true /\
  (Encode CaseRanges_Latin1 (lit "What hath God wrought 1844")).2 = None /\
  Decode (Encode CaseRanges_Latin1 (lit "What hath God wrought 1844")).1
    = (strings_Map asciiLower (lit "What hath God wrought 1844"), None).
Proof.
  split; [reflexivity|].
  apply (Decode_Encode_folds_case CaseRanges_Latin1
           (lit "What hath God wrought 1844")).
  reflexivity.
Defined.

Lemma alnum_space_encodable (r : rune) :
  alnum_space r = true -> r <> 0x49 -> (perl_space r = true -> r = 0x20) ->
  encodable_ascii r = true.
Proof.
  intros Hr. pose proof (alnum_space_ascii r Hr) as Hascii. revert Hr.
  revert r Hascii.
  apply (ascii_cases (fun r => alnum_space r = true -> r <> 0x49 ->
    (perl_space r = true -> r = 0x20) -> encodable_ascii r = true)).
  by_evaluation.
Qed.

(** X13. Escape, encode, decode, as the README does: for a text without the
    capital I and without a tab, line feed, form feed or carriage return,
    [Encode] of the escaped text returns no error and [Decode] of its codes
    returns the escaped text in lower case. *)
Theorem Decode_Encode_Escape (CaseRanges : list CaseRange) (text : gostring) :
  Forall (fun r => r <> 0x49 /\ (perl_space r = true -> r = 0x20)) text ->
  (Encode CaseRanges (Escape text)).2 = None /\
  Decode (Encode CaseRanges (Escape text)).1
    = (strings_Map asciiLower (Escape text), None).
Proof.
  intros Hall. apply Decode_Encode_fold.
  pose proof (Escape_alnum_space text) as Halnum.
  apply (Escape_Forall _ text) in Hall; [|split; [lia|reflexivity]].
  rewrite Forall_forall in *. intros r Hr.
  destruct (Hall r Hr) as [HI Hws].
  exact (alnum_space_encodable r (Halnum r Hr) HI Hws).
Qed.

Lemma Decode_Encode_Escape_witness :
  Forall (fun r => r <> 0x49 /\ (perl_space r = true -> r = 0x20))
         (lit "Testing morse code...") /\
  (Encode CaseRanges_Latin1 (Escape (lit "Testing morse code..."))).2 = None /\
  Decode (Encode CaseRanges_Latin1 (Escape (lit "Testing morse code..."))).1
    = (strings_Map asciiLower (Escape (lit "Testing morse code...")), None).
Proof.
  assert (Forall (fun r => r <> 0x49 /\ (perl_space r = true -> r = 0x20))
                 (lit "Testing morse code...")) as Hall by by_evaluation.
  split; [exact Hall|]. exact (Decode_Encode_Escape CaseRanges_Latin1 _ Hall).
Defined.

(** X14. [Decodable] looks up every code: either all of them have a character
    and it returns true and no error, or it returns false and the error of
    [codeToChar] for the first code without character. *)
Theorem Decodable_first_failure (codes : list Code) :
  (Forall (fun code => is_Some (charsMap !! code)) codes /\
   Decodable codes = (true, None))
  \/ exists pre code post,
       codes = pre ++ code :: post /\
       Forall (fun code => is_Some (charsMap !! code)) pre /\
       charsMap !! code = None /\
       Decodable codes =
         (false, Some (lit "no matching code in the chars map: '"
                       ++ code ++ lit "'")).
Proof.
  destruct (Decodable_cases codes)
    as [Hok|(pre & code & post & Hcodes & Hpre & Hcode & Hres)]; [now left|].
  right. exists pre, code, post.
  rewrite (codeToChar_missing _ Hcode) in Hres. auto.
Qed.

(** ** Further properties of [Escape] *)

(** X15. What [Escape] returns: a text of Latin letters, digits and white
    space in which no two white-space characters stand side by side. *)
Theorem Escape_result (text : gostring) :
  Forall (fun r => alnum_space r = true) (Escape text) /\
  adjacent perl_space (Escape text) = false.
Proof. split; [apply Escape_alnum_space|apply Escape_no_adjacent]. Qed.

(** X16. The texts that [Escape] leaves as they are: exactly the texts of
    Latin letters, digits and white space without two white-space
    characters side by side. *)
Theorem Escape_fixed_points (text : gostring) :
  Escape text = text <->
  Forall (fun r => alnum_space r = true) text /\
  adjacent perl_space text = false.
Proof.
  split.
  - intros Hfix. rewrite <- Hfix.
    split; [apply Escape_alnum_space|apply Escape_no_adjacent].
  - intros [Hall Hadj]. now apply Escape_fixed.
Qed.

Lemma ReplaceAllString_length (re : Regexp) (c : rune) (s : gostring) :
  (length (ReplaceAllString re s [c]) <= length s)%nat.
Proof.
  induction s as [s IH] using length_ind.
  destruct s as [|r s]; [simp ReplaceAllString; reflexivity|].
  destruct (ReplaceAllString_step re r s [c]) as [(_ & _ & ->)|(_ & ->)]; cbn.
  - assert (length (drop (run_length (class re) s) s) < length (r :: s))%nat as Hlt
      by (rewrite length_drop; cbn; lia).
    pose proof (IH _ Hlt) as Hle. rewrite length_drop in Hle. lia.
  - assert (length s < length (r :: s))%nat as Hlt by (cbn; lia).
    pose proof (IH _ Hlt). lia.
Qed.

(** X17. [Escape] never makes a text longer. *)
Theorem Escape_length (text : gostring) :
  (length (Escape text) <= length text)%nat.
Proof.
  rewrite Escape_filter.
  etransitivity; [apply (ReplaceAllString_length regexRedundantSpaces 0x20)|].
  apply List.filter_length_le.
Qed.

Lemma filter_drop_run (p q : rune -> bool) (s : gostring) :
  (forall r, p r = true -> q r = false) ->
  List.filter q (drop (run_length p s) s) = List.filter q s.
Proof.
  intros Hpq. induction s as [|r s IH]; [reflexivity|].
  cbn. destruct (p r) eqn:Hr; [|reflexivity].
  cbn. now rewrite (Hpq r Hr).
Qed.

(** Replacing runs of a class by runes outside [q] changes nothing to the
    runes in [q], when the class is outside [q]. *)
Lemma ReplaceAllString_filter (q : rune -> bool) (re : Regexp) (s repl : gostring) :
  (forall r, class re r = true -> q r = false) ->
  List.filter q repl = [] ->
  List.filter q (ReplaceAllString re s repl) = List.filter q s.
Proof.
  intros Hpq Hrepl. induction s as [s IH] using length_ind.
  destruct s as [|r s]; [now simp ReplaceAllString|].
  destruct (ReplaceAllString_step re r s repl) as [(Hr & _ & ->)|(_ & ->)].
  - rewrite List.filter_app, Hrepl, app_nil_l.
    rewrite IH by (rewrite length_drop; cbn; lia).
    cbn. rewrite (Hpq r Hr). now apply filter_drop_run.
  - cbn. rewrite IH by (cbn; lia). reflexivity.
Qed.

(** X18. [Escape] keeps every Latin letter and every digit, in order: the
    letters and digits of the escaped text are those of the text. *)
Theorem Escape_keeps_alphanumerics (text : gostring) :
  List.filter alphanumeric (Escape text) = List.filter alphanumeric text.
Proof.
  rewrite Escape_filter.
  rewrite (ReplaceAllString_filter alphanumeric regexRedundantSpaces).
  - induction text as [|r s IH]; [reflexivity|]. cbn.
    destruct (alnum_space r) eqn:Hr; cbn; [now rewrite IH|].
    rewrite IH. unfold alnum_space in Hr. unfold alphanumeric.
    apply orb_false_iff in Hr as [Hr _]. now rewrite Hr.
  - intros r Hr. cbn [class regexRedundantSpaces] in Hr.
    unfold perl_space in Hr. unfold alphanumeric, in_range.
    repeat (apply orb_true_iff in Hr as [Hr|Hr]);
      apply Z.eqb_eq in Hr; subst r; reflexivity.
  - reflexivity.
Qed.

(** ** The codes of the table *)

(** X19. The shape of the table: the code of the space is [Space]; the code
    of a letter is made of one to four short and long durations, the code
    of a digit of five. *)
Theorem codes_shape (chr : rune) (code : Code) :
  codesMap !! chr = Some code ->
  (chr = 0x20 /\ code = Codes.Space)
  \/ (unit_sequence code = true /\
      ((in_range 0x61 0x7A chr = true /\ (1 <= length code <= 4)%nat)
       \/ (in_range 0x30 0x39 chr = true /\ length code = 5%nat))).
Proof.
  intros Hcode. apply codesMap_lookup in Hcode.
  assert (Forall (fun kv : Z * list Z =>
            (kv.1 = 0x20 /\ kv.2 = Codes.Space)
            \/ (unit_sequence kv.2 = true /\
                ((in_range 0x61 0x7A kv.1 = true /\ (1 <= length kv.2 <= 4)%nat)
                 \/ (in_range 0x30 0x39 kv.1 = true /\ length kv.2 = 5%nat))))
            codesMap_literal) as Hall by by_evaluation.
  rewrite Forall_forall in Hall. exact (Hall _ Hcode).
Qed.

Lemma codes_shape_witness :
  codesMap !! ch "q" = Some Codes.Q /\
  ((ch "q" = 0x20 /\ Codes.Q = Codes.Space)
   \/ (unit_sequence Codes.Q = true /\
       ((in_range 0x61 0x7A (ch "q") = true /\ (1 <= length Codes.Q <= 4)%nat)
        \/ (in_range 0x30 0x39 (ch "q") = true /\ length Codes.Q = 5%nat)))).
Proof.
  split; [reflexivity|]. apply (codes_shape (ch "q") Codes.Q). reflexivity.
Defined.

Lemma CodeFromDurations_is_concat (durations : list Duration) :
  CodeFromDurations durations = concat durations.
Proof.
  unfold CodeFromDurations.
  rewrite CodeFromDurations_collect, app_nil_l. apply strings_Join_empty.
Qed.

Lemma concat_units_inj (ds ds' : list Duration) :
  Forall (fun d => d = Dit \/ d = Dah) ds ->
  Forall (fun d => d = Dit \/ d = Dah) ds' ->
  concat ds = concat ds' -> ds = ds'.
Proof.
  intros Hds. revert ds'.
  induction Hds as [|d ds Hd _ IH]; intros ds' Hds' Heq.
  - destruct Hds' as [|d' ds' [->| ->] _]; [reflexivity|discriminate..].
  - destruct Hds' as [|d' ds' Hd' Hds']; [destruct Hd as [->| ->]; discriminate|].
    destruct Hd as [->| ->], Hd' as [->| ->]; try discriminate;
      injection Heq as Heq; f_equal; now apply IH.
Qed.

(** X20. [CodeFromDurations] tells sequences of short and long durations
    apart, and it gives every code of the table but [Space]: the code of a
    letter or digit comes from exactly one sequence of [Dit] and [Dah]. *)
Theorem CodeFromDurations_unique :
  (forall ds ds',
     Forall (fun d => d = Dit \/ d = Dah) ds ->
     Forall (fun d => d = Dit \/ d = Dah) ds' ->
     CodeFromDurations ds = CodeFromDurations ds' -> ds = ds') /\
  (forall chr code,
     codesMap !! chr = Some code -> chr <> 0x20 ->
     exists ds,
       Forall (fun d => d = Dit \/ d = Dah) ds /\
       CodeFromDurations ds = code).
Proof.
  split.
  - intros ds ds' Hds Hds'. rewrite !CodeFromDurations_is_concat.
    now apply concat_units_inj.
  - intros chr code Hcode Hchr.
    assert (unit_sequence code = true) as Hunits.
    { apply codesMap_lookup in Hcode.
      assert (Forall (fun kv : Z * list Z => kv.1 = 0x20 \/ unit_sequence kv.2 = true)
                     codesMap_literal) as Hall by by_evaluation.
      rewrite Forall_forall in Hall.
      destruct (Hall _ Hcode) as [Heq|Hu]; [contradiction|exact Hu]. }
    exists (map (fun r => [r]) code). rewrite CodeFromDurations_is_concat.
    split.
    + unfold unit_sequence in Hunits. apply forallb_Forall in Hunits.
      apply Forall_map. eapply Forall_impl; [exact Hunits|].
      intros r Hr. cbn beta in *. unfold Dit, Dah.
      apply orb_true_iff in Hr as [Hr|Hr]; apply Z.eqb_eq in Hr; subst r; auto.
    + clear. induction code as [|r code IH]; cbn; [reflexivity|now rewrite IH].
Qed.

Lemma CodeFromDurations_unique_witness :
  (Forall (fun d => d = Dit \/ d = Dah) [Dit; Dah] /\
   Forall (fun d => d = Dit \/ d = Dah) [Dit; Dah] /\
   CodeFromDurations [Dit; Dah] = CodeFromDurations [Dit; Dah] /\
   [Dit; Dah] = [Dit; Dah]) /\
  (codesMap !! ch "a" = Some Codes.A /\ ch "a" <> 0x20 /\
   exists ds,
     Forall (fun d => d = Dit \/ d = Dah) ds /\ CodeFromDurations ds = Codes.A).
Proof.
  assert (Forall (fun d => d = Dit \/ d = Dah) [Dit; Dah]) as Hunits
    by (repeat constructor; auto).
  assert (ch "a" <> 0x20) as Hne by discriminate.
  split.
  - split; [exact Hunits|]. split; [exact Hunits|]. split; [reflexivity|].
    exact (proj1 CodeFromDurations_unique [Dit; Dah] [Dit; Dah]
             Hunits Hunits eq_refl).
  - split; [reflexivity|]. split; [exact Hne|].
    exact (proj2 CodeFromDurations_unique (ch "a") Codes.A eq_refl Hne).
Defined.

(** ** Playback *)

Lemma slept_app (a b : list call) : slept (a ++ b) = slept a + slept b.
Proof.
  induction a as [|c a IH]; [reflexivity|].
  cbn [app]. unfold slept in *. cbn [foldr]. destruct c; lia.
Qed.

Lemma played_app (a b : list call) : played (a ++ b) = played a + played b.
Proof.
  induction a as [|c a IH]; [reflexivity|].
  cbn [app]. unfold played in *. cbn [foldr]. destruct c; lia.
Qed.

Lemma slept_Beep_code (sr : Z) (code : Code) : slept (Beep_code sr code) = 0.
Proof. induction code as [|chr code IH]; [reflexivity|exact IH]. Qed.

(** The index matters to the loop of [Beep] only in being zero or not. *)
Lemma Beep_loop_index (sr : Z) (i j : nat) (codes : list Code) :
  Beep_loop sr (S i) codes = Beep_loop sr (S j) codes.
Proof.
  revert i j. induction codes as [|code codes IH]; intros i j; [reflexivity|].
  cbn [Beep_loop]. change (0 <? S i)%nat with true. change (0 <? S j)%nat with true.
  now rewrite (IH (S i) (S j)).
Qed.

Lemma Beep_loop_S (sr : Z) (i : nat) (code : Code) (codes : list Code) :
  Beep_loop sr (S i) (code :: codes) =
    time_Sleep (durationGap * Millisecond) :: Beep_loop sr 0 (code :: codes).
Proof.
  cbn [Beep_loop]. change (0 <? S i)%nat with true. change (0 <? 0)%nat with false.
  cbn [app]. now rewrite (Beep_loop_index sr (S i) 0).
Qed.

Lemma Beep_loop_app (sr : Z) (i : nat) (a b : list Code) :
  Beep_loop sr i (a ++ b) = Beep_loop sr i a ++ Beep_loop sr (i + length a) b.
Proof.
  revert i. induction a as [|code a IH]; intros i.
  - cbn. now rewrite Nat.add_0_r.
  - cbn [app Beep_loop length]. rewrite IH, <- !app_assoc.
    now replace (S i + length a)%nat with (i + S (length a))%nat by lia.
Qed.

Lemma slept_Beep_loop (sr : Z) (i : nat) (codes : list Code) :
  slept (Beep_loop sr (S i) codes)
  = durationGap * Millisecond * Z.of_nat (length codes).
Proof.
  revert i. induction codes as [|code codes IH]; intros i; [reflexivity|].
  cbn [Beep_loop]. change (0 <? S i)%nat with true.
  rewrite !slept_app, slept_Beep_code, IH. cbn [length].
  change (slept [time_Sleep (durationGap * Millisecond)])
    with (durationGap * Millisecond + 0). lia.
Qed.

Lemma Sleeps_Beep_code (sr : Z) (code : Code) :
  List.filter is_Sleep (Beep_code sr code) = [].
Proof. induction code as [|chr code IH]; [reflexivity|exact IH]. Qed.

Lemma Sleeps_Beep_loop (sr : Z) (i : nat) (codes : list Code) :
  List.filter is_Sleep (Beep_loop sr (S i) codes)
  = replicate (length codes) (time_Sleep (240 * Millisecond)).
Proof.
  revert i. induction codes as [|code codes IH]; intros i; [reflexivity|].
  cbn [Beep_loop]. change (0 <? S i)%nat with true.
  rewrite !List.filter_app, Sleeps_Beep_code, IH. reflexivity.
Qed.

Lemma utf8_glyph (chr g : rune) :
  ValidRune g = true -> g <> RuneError ->
  bool_decide ([utf8 chr] = [g]) = (g =? chr).
Proof.
  intros Hg Hne. unfold utf8.
  destruct (Z.eqb_spec g chr) as [<-|Hdiff].
  - rewrite Hg. now apply bool_decide_eq_true.
  - apply bool_decide_eq_false. destruct (ValidRune chr); congruence.
Qed.

Lemma played_Beep_code (code : Code) :
  played (Beep_code 44100 code)
  = 5292 * count_glyph 0x2022 [code] + 15876 * count_glyph 0x2212 [code].
Proof.
  unfold count_glyph. cbn [concat]. rewrite app_nil_r.
  induction code as [|chr code IH]; [reflexivity|].
  cbn [Beep_code map List.filter]. fold (Beep_code 44100 code).
  change (played (?c :: ?l)) with (played ([c] ++ l)).
  rewrite played_app, IH. unfold glyph_duration, Dit, Dah.
  rewrite (utf8_glyph chr 0x2022), (utf8_glyph chr 0x2212) by easy.
  destruct (Z.eqb_spec 0x2022 chr) as [<-|H1].
  - cbn [length]. change (played _) with 5292 at 1.
    change (0x2212 =? 0x2022) with false. cbv iota. lia.
  - destruct (Z.eqb_spec 0x2212 chr) as [<-|H2].
    + cbn [length]. change (played _) with 15876 at 1. lia.
    + change (played _) with 0 at 1. lia.
Qed.

Lemma count_glyph_cons (g : rune) (code : Code) (codes : list Code) :
  count_glyph g (code :: codes) = count_glyph g [code] + count_glyph g codes.
Proof.
  unfold count_glyph. cbn [concat]. rewrite app_nil_r.
  rewrite List.filter_app, length_app. lia.
Qed.

Lemma played_Beep_loop (i : nat) (codes : list Code) :
  played (Beep_loop 44100 i codes)
  = 5292 * count_glyph 0x2022 codes + 15876 * count_glyph 0x2212 codes.
Proof.
  revert i. induction codes as [|code codes IH]; intros i; [reflexivity|].
  rewrite (count_glyph_cons 0x2022 code codes), (count_glyph_cons 0x2212 code codes).
  cbn [Beep_loop]. rewrite !played_app, played_Beep_code, IH.
  destruct (0 <? i)%nat; change (played _) with 0 at 1; lia.
Qed.

(** X21. What [Beep] plays and how long it sleeps: it sleeps 240 ms for
    every code but the first, and not at all for a single code; it plays
    5292 samples (120 ms at 44100 Hz) for every short duration and 15876
    samples (360 ms) for every long one, and no sample for any other rune
    of a code, such as the space of [Space]. *)
Theorem Beep_totals (codes : list Code) :
  slept (Beep codes) = 240 * Millisecond * Z.of_nat (length codes - 1) /\
  List.filter is_Sleep (Beep codes)
  = replicate (length codes - 1) (time_Sleep (240 * Millisecond)) /\
  played (Beep codes)
  = 5292 * count_glyph 0x2022 codes + 15876 * count_glyph 0x2212 codes.
Proof.
  unfold Beep. cbv zeta. split; [|split].
  - change (slept (?c :: ?l)) with (slept ([c] ++ l)). rewrite slept_app.
    change (slept [_]) with 0.
    destruct codes as [|code codes]; [reflexivity|].
    cbn [Beep_loop]. change (0 <? 0)%nat with false. cbn [app].
    rewrite slept_app, slept_Beep_code, slept_Beep_loop.
    cbn [length]. replace (S (length codes) - 1)%nat with (length codes) by lia.
    change (durationGap * Millisecond) with (240 * Millisecond). lia.
  - cbn [List.filter is_Sleep].
    destruct codes as [|code codes]; [reflexivity|].
    cbn [Beep_loop]. change (0 <? 0)%nat with false. cbn [app].
    rewrite List.filter_app, Sleeps_Beep_code, app_nil_l, Sleeps_Beep_loop.
    cbn [length]. now replace (S (length codes) - 1)%nat with (length codes) by lia.
  - change (played (?c :: ?l)) with (played ([c] ++ l)). rewrite played_app.
    change (played [_]) with 0. rewrite played_Beep_loop. lia.
Qed.

(** X22. Playing a message in two parts: [Beep] of two transcripts, one after
    the other, makes the calls of [Beep] of the first, sleeps 240 ms,
    and makes the calls of [Beep] of the second but the [speaker.Init]. *)
Theorem Beep_app (a b : list Code) :
  a <> [] -> b <> [] ->
  Beep (a ++ b)
  = Beep a ++ time_Sleep (240 * Millisecond) :: tail (Beep b).
Proof.
  intros Ha Hb. unfold Beep. cbv zeta. cbn [tail app]. f_equal.
  rewrite Beep_loop_app. f_equal.
  destruct a as [|code a]; [contradiction|].
  destruct b as [|code' b]; [contradiction|].
  cbn [length Nat.add]. apply Beep_loop_S.
Qed.

Lemma Beep_app_witness :
  [Codes.S; Codes.O] <> [] /\ [Codes.S] <> [] /\
  Beep ([Codes.S; Codes.O] ++ [Codes.S])
  = Beep [Codes.S; Codes.O] ++ time_Sleep (240 * Millisecond) :: tail (Beep [Codes.S]).
Proof.
  assert ([Codes.S; Codes.O] <> []) as Ha by discriminate.
  assert ([Codes.S] <> []) as Hb by discriminate.
  split; [exact Ha|]. split; [exact Hb|].
  exact (Beep_app [Codes.S; Codes.O] [Codes.S] Ha Hb).
Defined.

(** ** Missing keys *)

(** X23. The two lookups at a missing key.  [charToCode] returns an error
    exactly for a rune that is not a supported character, with the empty
    code; for a supported character the code is not empty, so an empty code
    always comes with an error.  [codeToChar] returns an error, with the
    rune 0, exactly for a code that is not the code of a supported
    character; otherwise the character it returns is supported. *)
Theorem lookup_missing :
  (forall chr,
     (supported chr = true /\ (charToCode chr).2 = None /\ (charToCode chr).1 <> [])
     \/ (supported chr = false /\
         charToCode chr =
           ([], Some (lit "no matching character in the codes map: '"
                      ++ fmt_c chr ++ lit "'")))) /\
  (forall code,
     (exists chr, supported chr = true /\ (charToCode chr).1 = code /\
                  codeToChar code = (chr, None))
     \/ ((forall chr, supported chr = true -> (charToCode chr).1 <> code) /\
         codeToChar code =
           (0, Some (lit "no matching code in the chars map: '"
                     ++ code ++ lit "'")))).
Proof.
  split.
  - intros chr. destruct (supported chr) eqn:Hsup.
    + left. split; [reflexivity|].
      pose proof Hsup as Hcode. apply supported_lookup in Hcode as [code Hcode].
      rewrite (charToCode_found _ _ Hcode). split; [reflexivity|]. cbn [fst].
      apply codesMap_lookup in Hcode.
      assert (Forall (fun kv : Z * list Z => kv.2 <> []) codesMap_literal) as Hall
        by by_evaluation.
      rewrite Forall_forall in Hall. exact (Hall _ Hcode).
    + right. split; [reflexivity|].
      apply charToCode_missing, unsupported_lookup, Hsup.
  - intros code. destruct (charsMap !! code) as [chr|] eqn:Hchr.
    + left. exists chr. pose proof Hchr as Hcode. apply charsMap_lookup in Hcode.
      split; [apply supported_lookup; eauto|].
      split; [now rewrite (charToCode_found _ _ Hcode)|].
      now apply codeToChar_found.
    + right. split; [|now apply codeToChar_missing].
      intros chr Hsup Heq. apply supported_lookup in Hsup as [code' Hcode'].
      rewrite (charToCode_found _ _ Hcode') in Heq. cbn [fst] in Heq. subst code'.
      apply charsMap_lookup in Hcode'. congruence.
Qed.
